(** * Pixel sorting (pixel_sort.py): shallow embedding and verified properties

    The Python module is embedded function by function:
    [luminance], [rgb_to_hsl], [create_mask], [identify_spans], [sort_span]
    and [pixel_sort].

    - Python floats and numpy float64 values are IEEE binary64 numbers: they
      are Rocq's primitive floats, with the same rounding and comparisons.
    - numpy arrays are a shape and a row-major buffer ([ndarray]); indexing
      outside the shape raises [IndexError].
    - Exceptions are the [Raise] outcome of the [result] type.
    - [img] and [out] are references into a store of arrays, so that
      [img.copy()] and the in-place writes of [pixel_sort] are explicit.
    - Three library calls are outside the module: [colour.RGB_to_HSL], the
      float power [**] of numpy and [np.random.uniform]. They are the fields
      of the class [Externals]. *)

From Stdlib Require Import ZArith Floats Uint63 Lia.
From stdpp Require Import gmap strings list sorting.

(* ================================================================= *)
(** ** Outcomes of a Python call *)

Inductive exn : Set :=
| IndexError          (* a subscript outside an array or a list *)
| UnboundLocalError   (* a local variable read before any assignment *)
| ValueError          (* shapes that do not broadcast *)
| ZeroDivisionError.  (* float division by zero *)

(** [Stuck] is not a Python outcome: it marks a model run that went out of
    loop fuel or followed a reference to no array. The theorems below show
    that a run on an array of the store never ends there. *)
Inductive result (A : Type) : Type :=
| Ok (a : A)
| Raise (e : exn)
| Stuck.

Arguments Ok {A} a.
Arguments Raise {A} e.
Arguments Stuck {A}.

#[global] Instance result_ret : MRet result := @Ok.
#[global] Instance result_bind : MBind result := λ A B f m,
  match m with
  | Ok a => f a
  | Raise e => Raise e
  | Stuck => Stuck
  end.

(** [l[i]] on a Python list. *)
Definition index {A} (l : list A) (i : nat) : result A :=
  match l !! i with
  | Some v => Ok v
  | None => Raise IndexError
  end.

(** [[f(x) for x in xs]] *)
Fixpoint comprehension {A B} (f : A → result B) (xs : list A) : result (list B) :=
  match xs with
  | [] => Ok []
  | x :: xs' => v ← f x; vs ← comprehension f xs'; Ok (v :: vs)
  end.

(** [for x in xs: body], threading the variables the body assigns. *)
Fixpoint for_each {X S} (xs : list X) (body : X → S → result S) (s : S) : result S :=
  match xs with
  | [] => Ok s
  | x :: xs' => s' ← body x s; for_each xs' body s'
  end.

(** [range(start, stop)] *)
Definition range (start stop : nat) : list nat := seq start (stop - start).

(* ================================================================= *)
(** ** numpy arrays *)

(** A two-dimensional array (the channel axis of an image lives in the cell
    type): [height] and [width] are [shape[0]] and [shape[1]], [cells] is the
    row-major buffer. *)
Record ndarray (A : Type) : Type := NdArray {
  height : nat;
  width : nat;
  cells : list A
}.

Arguments NdArray {A} height width cells.
Arguments height {A} _.
Arguments width {A} _.
Arguments cells {A} _.

(** numpy only builds arrays whose buffer fills the shape. *)
Definition well_formed {A} (a : ndarray A) : Prop :=
  length (cells a) = height a * width a.

Definition in_shape {A} (a : ndarray A) (y x : nat) : bool :=
  bool_decide (y < height a) && bool_decide (x < width a).

(** [a[y, x]] *)
Definition getitem {A} (a : ndarray A) (y x : nat) : result A :=
  if in_shape a y x then index (cells a) (y * width a + x) else Raise IndexError.

(** [a[y, x] = v] *)
Definition setitem {A} (a : ndarray A) (y x : nat) (v : A) : result (ndarray A) :=
  if in_shape a y x
  then Ok (NdArray (height a) (width a) (<[y * width a + x := v]> (cells a)))
  else Raise IndexError.

(** An RGB pixel: three uint8 channels, each a [Z] in [0, 255]. *)
Definition pixel : Type := Z * Z * Z.

Definition red (p : pixel) : Z := p.1.1.
Definition green (p : pixel) : Z := p.1.2.
Definition blue (p : pixel) : Z := p.2.

Definition image : Type := ndarray pixel.

(* ================================================================= *)
(** ** Floats *)

(** A uint8 value as a float64 (exact). *)
Definition float_of_uint8 (v : Z) : float := of_uint63 (Uint63.of_Z v).

(** The library calls the module makes. *)
Class Externals : Type := {
  (** [colour.RGB_to_HSL] on a normalised RGB triple *)
  RGB_to_HSL : float * float * float → float * float * float;
  (** [x ** e] on float64 *)
  power : float → float → float;
  (** the state of numpy's global random generator *)
  rng : Type;
  (** [np.random.uniform(low, high)] *)
  uniform : float → float → rng → float * rng
}.

(* ================================================================= *)
(** ** ColorMetrics: [luminance], [rgb_to_hsl] *)

#[warnings="-inexact-float"]
Definition luminance (rgb : pixel) : float :=
  let '(r, g, b) := rgb in
  let r := (float_of_uint8 r / 255)%float in
  let g := (float_of_uint8 g / 255)%float in
  let b := (float_of_uint8 b / 255)%float in
  (0.299 * r + 0.587 * g + 0.114 * b)%float.

Definition rgb_to_hsl `{Externals} (rgb : pixel) : float * float * float :=
  let '(r, g, b) := rgb in
  let arr := ((float_of_uint8 r / 255)%float,
              (float_of_uint8 g / 255)%float,
              (float_of_uint8 b / 255)%float) in
  RGB_to_HSL arr.

(* ================================================================= *)
(** ** The built-in [sorted] *)

(** CPython's [sorted(xs, key=f, reverse=r)] evaluates [f] once per element,
    sorts the (key, element) pairs with a stable sort that only ever asks
    [k1 < k2], and for [reverse=True] reverses the list before and after the
    sort, which keeps equal keys in their original order. The stable sort is
    an insertion sort here (what CPython runs on short lists). *)
Section Sorted.
Context {A K : Type} (lt : K → K → bool).

Fixpoint insort (x : K * A) (l : list (K * A)) : list (K * A) :=
  match l with
  | [] => [x]
  | y :: l' => if lt y.1 x.1 then y :: insort x l' else x :: y :: l'
  end.

Definition stable_sort (l : list (K * A)) : list (K * A) := foldr insort [] l.

Definition sort_decorated (descending : bool) (l : list (K * A)) : list (K * A) :=
  if descending then reverse (stable_sort (reverse l)) else stable_sort l.

Definition sorted (xs : list A) (key : A → result K) (reverse : bool) : result (list A) :=
  ks ← comprehension key xs;
  Ok (sort_decorated reverse (zip ks xs)).*2.

End Sorted.

(* ================================================================= *)
(** ** SpanSorter: [sort_span] *)

(** The list [keys] holds floats on the recognised branches and ints on the
    fallback branch. *)
Inductive key_list : Type :=
| FloatKeys (ks : list float)
| IntKeys (ks : list Z).

Definition is_hsl (metric : string) : bool :=
  String.eqb metric "hsl_h" || String.eqb metric "hsl_s" || String.eqb metric "hsl_l".

Definition hsl_component `{Externals} (metric : string) (p : pixel) : float :=
  let '(h, s, l) := rgb_to_hsl p in
  if String.eqb metric "hsl_h" then h
  else if String.eqb metric "hsl_s" then s
  else l.

Definition sort_keys `{Externals} (span_pixels : list pixel) (metric : string) : key_list :=
  if String.eqb metric "luminance" then FloatKeys (luminance <$> span_pixels)
  else if String.eqb metric "r" then FloatKeys ((λ p, float_of_uint8 (red p)) <$> span_pixels)
  else if String.eqb metric "g" then FloatKeys ((λ p, float_of_uint8 (green p)) <$> span_pixels)
  else if String.eqb metric "b" then FloatKeys ((λ p, float_of_uint8 (blue p)) <$> span_pixels)
  else if is_hsl metric then FloatKeys (hsl_component metric <$> span_pixels)
  else IntKeys (Z.of_nat <$> range 0 (length span_pixels)).

Definition sort_span `{Externals} (span_pixels : list pixel) (metric : string)
    (reverse : bool) : result (list pixel) :=
  let keys := sort_keys span_pixels metric in
  sorted_indices ←
    match keys with
    | FloatKeys ks => sorted PrimFloat.ltb (range 0 (length span_pixels)) (index ks) reverse
    | IntKeys ks => sorted Z.ltb (range 0 (length span_pixels)) (index ks) reverse
    end;
  sorted_pixels ← comprehension (index span_pixels) sorted_indices;
  Ok sorted_pixels.

(* ================================================================= *)
(** ** MaskBuilder: [create_mask] *)

(** [np.maximum], [np.minimum] and [np.clip] on float64: a NaN operand is
    returned as it is. *)
Definition np_maximum (a b : float) : float :=
  if is_nan a then a else if is_nan b then b else if (a <? b)%float then b else a.

Definition np_minimum (a b : float) : float :=
  if is_nan a then a else if is_nan b then b else if (b <? a)%float then b else a.

Definition np_clip (x lo hi : float) : float := np_minimum (np_maximum x lo) hi.

(** The scalar [val] of one pixel (lines 33-39). No branch assigns [val] when
    [channel] is none of the four names, and the first read of [val] then
    raises [UnboundLocalError]; as [channel] is the same at every pixel, this
    happens at the first pixel, before any earlier value of [val] exists. *)
Definition mask_value `{Externals} (channel : string) (pixel : pixel) : result float :=
  if String.eqb channel "luminance" then Ok (luminance pixel)
  else
    let '(h, s, l) := rgb_to_hsl pixel in
    if String.eqb channel "hsl_h" then Ok h
    else if String.eqb channel "hsl_s" then Ok s
    else if String.eqb channel "hsl_l" then Ok l
    else Raise UnboundLocalError.

(** The body of the two loops (lines 32-45); it assigns [mask] and draws from
    the random generator. The mask cells are the uint8 values 0 and 1, kept
    as booleans. *)
Definition mask_cell `{Externals} (img : image) (low_thresh high_thresh : float)
    (channel : string) (random_offset : float) (y x : nat)
    (st : ndarray bool * rng) : result (ndarray bool * rng) :=
  let '(mask, g) := st in
  pixel ← getitem img y x;
  val ← mask_value channel pixel;
  let '(val, g) :=
    if (0 <? random_offset)%float
    then let '(u, g') := uniform (- random_offset)%float random_offset g in
         (np_clip (val + u)%float 0%float 1%float, g')
    else (val, g) in
  if (low_thresh <=? val)%float && (val <=? high_thresh)%float
  then mask ← setitem mask y x true; Ok (mask, g)
  else Ok (mask, g).

(** [1 - mask] on a 0/1 mask. *)
Definition invert_mask (mask : ndarray bool) : ndarray bool :=
  NdArray (height mask) (width mask) (negb <$> cells mask).

Definition create_mask `{Externals} (img : image) (low_thresh high_thresh : float)
    (channel : string) (invert : bool) (random_offset : float)
    (g : rng) : result (ndarray bool * rng) :=
  let h := height img in
  let w := width img in
  let mask := NdArray h w (replicate (h * w) false) in
  '(mask, g) ← for_each (range 0 h) (λ y,
                 for_each (range 0 w) (λ x,
                   mask_cell img low_thresh high_thresh channel random_offset y x))
               (mask, g);
  let mask := if invert then invert_mask mask else mask in
  Ok (mask, g).

(* ================================================================= *)
(** ** SpanExtractor: [identify_spans] *)

(** (row or column, start, end), the end exclusive. *)
Definition span : Type := nat * nat * nat.

(** The two branches of [identify_spans] run the same pair of loops, on
    [mask[y, x]] with [x] moving in one and [y] moving in the other: [cell i]
    is that read at offset [i] of the scan line, [n] the length of the line.

    The inner loop (lines 65-66 and 75-76): [while i < n and cell(i): i += 1]. *)
Fixpoint skip_run (fuel : nat) (cell : nat → result bool) (n i : nat) : result nat :=
  match fuel with
  | 0 => Stuck
  | S fuel' =>
      if bool_decide (i < n) then
        c ← cell i;
        if (c : bool) then skip_run fuel' cell n (i + 1) else Ok i
      else Ok i
  end.

(** The outer loop (lines 62-68 and 72-78), from offset [i] on. *)
Fixpoint scan_line (fuel : nat) (cell : nat → result bool) (n line i : nat)
    (spans : list span) : result (list span) :=
  match fuel with
  | 0 => Stuck
  | S fuel' =>
      if bool_decide (i < n) then
        c ← cell i;
        if (c : bool) then
          let start := i in
          i ← skip_run (S n) cell n i;
          scan_line fuel' cell n line (i + 1) (spans ++ [(line, start, i)])
        else scan_line fuel' cell n line (i + 1) spans
      else Ok spans
  end.

(** Every turn of either loop moves the offset forward, so [S n] turns are
    enough fuel for a line of [n] cells ([skip_run_spec], [scan_line_spec]
    and [identify_spans_maximal] below). *)
Definition identify_spans (mask : ndarray bool) (horizontal : bool) : result (list span) :=
  let h := height mask in
  let w := width mask in
  if horizontal then
    for_each (range 0 h) (λ y : nat, scan_line (S w) (λ x, getitem mask y x) w y 0) []
  else
    for_each (range 0 w) (λ x : nat, scan_line (S h) (λ y, getitem mask y x) h x 0) [].

(* ================================================================= *)
(** ** The store of arrays *)

Definition loc : Type := nat.

(** The arrays alive during a call, and numpy's global random generator. *)
Record state `{Externals} : Type := State {
  heap : gmap loc image;
  generator : rng
}.

Arguments State {_} heap generator.

Definition deref `{Externals} (σ : state) (l : loc) : result image :=
  match heap σ !! l with
  | Some a => Ok a
  | None => Stuck
  end.

(** A new array at a location no array lives at. *)
Definition alloc `{Externals} (σ : state) (a : image) : loc * state :=
  let l : loc := fresh (dom (heap σ)) in
  (l, State (<[l := a]> (heap σ)) (generator σ)).

(** An in-place write to the array at [l]. *)
Definition store `{Externals} (σ : state) (l : loc) (a : image) : state :=
  State (<[l := a]> (heap σ)) (generator σ).

(* ================================================================= *)
(** ** PipelineOrchestrator: [pixel_sort] *)

(** [a[y, start:stop] = vs] for a sequence [vs] of pixels: the slice is cut
    to the row, a single pixel is broadcast over it, and any other length
    than the slice's (the empty sequence too) is a shape mismatch, a
    [ValueError]. *)
Definition setslice {A} (a : ndarray A) (y start stop : nat) (vs : list A) : result (ndarray A) :=
  if bool_decide (y < height a) then
    let start := start `min` width a in
    let stop := stop `min` width a in
    let fill (vs : list A) :=
      Ok (NdArray (height a) (width a) (list_inserts (y * width a + start) vs (cells a))) in
    match vs with
    | [] => Raise ValueError
    | [v] => fill (replicate (stop - start) v)
    | _ => if bool_decide (length vs = stop - start) then fill vs else Raise ValueError
    end
  else Raise IndexError.

(** [enumerate(xs)] *)
Definition enumerate {A} (xs : list A) : list (nat * A) := zip (seq 0 (length xs)) xs.

(** The loop body for a horizontal span (lines 119-122). *)
Definition sort_row `{Externals} (out : loc) (metric : string) (reverse : bool)
    (sp : span) (σ : state) : result state :=
  let '(y, start, stop) := sp in
  o ← deref σ out;
  span_pixels ← comprehension (λ x, getitem o y x) (range start stop);
  sorted_span ← sort_span span_pixels metric reverse;
  o ← deref σ out;
  o ← setslice o y start stop sorted_span;
  Ok (store σ out o).

(** The loop body for a vertical span (lines 124-128). *)
Definition sort_column `{Externals} (out : loc) (metric : string) (reverse : bool)
    (sp : span) (σ : state) : result state :=
  let '(x, start, stop) := sp in
  o ← deref σ out;
  span_pixels ← comprehension (λ y, getitem o y x) (range start stop);
  sorted_span ← sort_span span_pixels metric reverse;
  for_each (enumerate (range start stop)) (λ '(j, y) σ,
    o ← deref σ out;
    v ← index sorted_span j;
    o ← setitem o y x v;
    Ok (store σ out o)) σ.

(** Lines 113-128: the copy, the mask, the spans and the sort of every span
    in [out]. The result is the reference [out]. *)
Definition sort_pass `{Externals} (σ : state) (img : loc)
    (low_thresh high_thresh : float) (channel : string) (invert : bool)
    (random_offset : float) (horizontal : bool) (metric : string)
    (reverse : bool) : result (loc * state) :=
  a ← deref σ img;
  let '(out, σ) := alloc σ a in
  a ← deref σ img;
  '(mask, g) ← create_mask a low_thresh high_thresh channel invert random_offset (generator σ);
  let σ := State (heap σ) g in
  spans ← identify_spans mask horizontal;
  σ ← for_each spans (λ sp σ,
        if horizontal then sort_row out metric reverse sp σ
        else sort_column out metric reverse sp σ) σ;
  Ok (out, σ).

(** [astype(np.uint8)] on a float64: the fraction is dropped (a C cast), the
    integer is kept modulo 256. After [np.clip(_, 0, 255)] the float is in
    [0, 255] or a NaN, which is sent to 0 here. *)
Definition astype_uint8 (f : float) : Z :=
  match Prim2SF f with
  | S754_finite s m e =>
      let z := Z.shiftl (Z.pos m) e in
      ((if s then - z else z) `mod` 256)%Z
  | _ => 0%Z
  end.

(** One channel of line 132, for the exponent [e = 1/gamma]. *)
Definition gamma_channel `{Externals} (e : float) (v : Z) : Z :=
  astype_uint8 (np_clip (power (float_of_uint8 v / 255)%float e * 255)%float 0%float 255%float).

Definition gamma_pixel `{Externals} (e : float) (p : pixel) : pixel :=
  (gamma_channel e (red p), gamma_channel e (green p), gamma_channel e (blue p)).

Definition gamma_correct `{Externals} (e : float) (a : image) : image :=
  NdArray (height a) (width a) (gamma_pixel e <$> cells a).

(** [1/gamma] on Python floats. *)
Definition reciprocal (gamma : float) : result float :=
  if (gamma =? 0)%float then Raise ZeroDivisionError else Ok (1 / gamma)%float.

Definition pixel_sort `{Externals} (σ : state) (img : loc)
    (low_thresh high_thresh : float) (channel : string) (invert : bool)
    (random_offset : float) (horizontal : bool) (metric : string)
    (reverse : bool) (gamma : float) : result (loc * state) :=
  '(out, σ) ← sort_pass σ img low_thresh high_thresh channel invert random_offset
                horizontal metric reverse;
  if negb (gamma =? 1)%float then
    o ← deref σ out;
    e ← reciprocal gamma;
    Ok (alloc σ (gamma_correct e o))
  else Ok (out, σ).

(* ================================================================= *)
(** ** Vocabulary of the statements *)

(** The metrics [sort_span] knows. *)
Definition recognised (metric : string) : bool :=
  String.eqb metric "luminance" || String.eqb metric "r" || String.eqb metric "g"
  || String.eqb metric "b" || is_hsl metric.

(** The sort key of a pixel under a recognised metric: luminance, a raw
    channel, or hue, saturation, lightness. *)
Definition metric_key `{Externals} (metric : string) (p : pixel) : float :=
  if String.eqb metric "luminance" then luminance p
  else if String.eqb metric "r" then float_of_uint8 (red p)
  else if String.eqb metric "g" then float_of_uint8 (green p)
  else if String.eqb metric "b" then float_of_uint8 (blue p)
  else hsl_component metric p.

(** The channels [create_mask] documents. *)
Definition valid_channel (channel : string) : bool :=
  String.eqb channel "luminance" || is_hsl channel.

(** The scalar a valid channel thresholds: luminance, hue, saturation or
    lightness. *)
Definition channel_metric `{Externals} (channel : string) (p : pixel) : float :=
  if String.eqb channel "luminance" then luminance p
  else if String.eqb channel "hsl_h" then (rgb_to_hsl p).1.1
  else if String.eqb channel "hsl_s" then (rgb_to_hsl p).1.2
  else (rgb_to_hsl p).2.

(** [low <= v <= high], both ends included. *)
Definition in_thresholds (low high v : float) : bool :=
  (low <=? v)%float && (v <=? high)%float.

(** The rule a mask cell follows without jitter. *)
Definition cell_rule `{Externals} (low high : float) (channel : string) (p : pixel) : bool :=
  in_thresholds low high (channel_metric channel p).

(** The mask of [create_mask] once the first [k] cells in row-major order
    have been visited (no jitter): the rule on those, zero on the rest. *)
Definition partial_mask `{Externals} (img : image) (low high : float) (channel : string)
    (k : nat) : ndarray bool :=
  NdArray (height img) (width img)
    ((cell_rule low high channel <$> take k (cells img))
     ++ replicate (height img * width img - k) false).

(** Scan lines: rows when [horizontal], columns otherwise. *)
Definition line_count {A} (a : ndarray A) (horizontal : bool) : nat :=
  if horizontal then height a else width a.

Definition line_length {A} (a : ndarray A) (horizontal : bool) : nat :=
  if horizontal then width a else height a.

Definition line_cell {A} (a : ndarray A) (horizontal : bool) (line i : nat) : result A :=
  if horizontal then getitem a line i else getitem a i line.

(** [start, stop) is a non-empty run of true cells of a line of [n] cells
    read by [cell], with a false cell (or the border) on either side. *)
Definition line_run (cell : nat → result bool) (n start stop : nat) : Prop :=
  start < stop ∧ stop ≤ n ∧
  (∀ i, start ≤ i < stop → cell i = Ok true) ∧
  (0 < start → cell (start - 1) = Ok false) ∧
  (stop < n → cell stop = Ok false).

(** A span that is such a run of a scan line of the mask. *)
Definition maximal_run (mask : ndarray bool) (horizontal : bool) (sp : span) : Prop :=
  let '(line, start, stop) := sp in
  line < line_count mask horizontal ∧
  line_run (line_cell mask horizontal line) (line_length mask horizontal) start stop.

(** [s1] comes before [s2] in scan order and they neither touch nor overlap:
    an earlier line, or the same line with a gap between them. *)
Definition span_before (s1 s2 : span) : Prop :=
  let '(line1, _, stop1) := s1 in
  let '(line2, start2, _) := s2 in
  line1 < line2 ∨ (line1 = line2 ∧ stop1 < start2).

(** The span lies inside the array. *)
Definition span_in_shape {A} (a : ndarray A) (horizontal : bool) (sp : span) : Prop :=
  let '(line, start, stop) := sp in
  line < line_count a horizontal ∧ start < stop ∧ stop ≤ line_length a horizontal.

(** The position (y, x) lies in the span. *)
Definition covers (horizontal : bool) (sp : span) (y x : nat) : Prop :=
  let '(line, start, stop) := sp in
  if horizontal then y = line ∧ start ≤ x < stop
  else x = line ∧ start ≤ y < stop.

(** The tone curve in the words of the specification.

    [clamp(x, lo, hi)]: the bound that [x] passes, or [x] itself. *)
Definition clamp (x lo hi : float) : float :=
  if (x <? lo)%float then lo else if (hi <? x)%float then hi else x.

(** A finite float stands for the number [±m * 2^e]. Its integer part (the
    fraction dropped) and the integer nearest to it (a half goes away from
    zero); a NaN and the infinities have neither. *)
Definition integer_part (f : float) : option Z :=
  match Prim2SF f with
  | S754_zero _ => Some 0%Z
  | S754_finite s m e =>
      let q := (if (0 <=? e)%Z then Z.pos m * 2 ^ e else Z.pos m `div` 2 ^ (- e))%Z in
      Some (if s then - q else q)%Z
  | _ => None
  end.

Definition nearest_integer (f : float) : option Z :=
  match Prim2SF f with
  | S754_zero _ => Some 0%Z
  | S754_finite s m e =>
      let q := (if (0 <=? e)%Z then Z.pos m * 2 ^ e
                else (2 * Z.pos m + 2 ^ (- e)) `div` 2 ^ (1 - e))%Z in
      Some (if s then - q else q)%Z
  | _ => None
  end.

(** [clamp(((v/255)^(1/gamma)) * 255, 0, 255)], with the power of the
    library. *)
Definition tone_value `{Externals} (gamma : float) (v : Z) : float :=
  clamp (power (float_of_uint8 v / 255)%float (1 / gamma)%float * 255)%float
    0%float 255%float.

(** The tone curve with the fraction dropped, and the tone curve rounded to
    the nearest integer. *)
Definition tone_curve `{Externals} (gamma : float) (v : Z) : option Z :=
  integer_part (tone_value gamma v).

Definition tone_curve_rounded `{Externals} (gamma : float) (v : Z) : option Z :=
  nearest_integer (tone_value gamma v).

(** The channel value [v] has become [r], the tone curve of [v] with the
    fraction dropped, wherever the curve is a number. *)
Definition tone_mapped `{Externals} (gamma : float) (v r : Z) : Prop :=
  is_nan (tone_value gamma v) = false → tone_curve gamma v = Some r.

(** Python's [a == b], [a < b] on floats, as propositions. *)
Definition float_eq (a b : float) : Prop := (a =? b)%float = true.
Definition float_lt (a b : float) : Prop := (a <? b)%float = true.
Definition float_le (a b : float) : Prop := (a <=? b)%float = true.

#[global] Instance float_eq_dec (a b : float) : Decision (float_eq a b) :=
  decide ((a =? b)%float = true).
#[global] Instance float_lt_dec (a b : float) : Decision (float_lt a b) :=
  decide ((a <? b)%float = true).
#[global] Instance float_le_dec (a b : float) : Decision (float_le a b) :=
  decide ((a <=? b)%float = true).

(** The pixels of a span paired with their keys under a recognised metric:
    what [sorted] orders. *)
Definition decorate `{Externals} (metric : string) (px : list pixel) : list (float * pixel) :=
  zip (metric_key metric <$> px) px.

(** Ascending or descending order of the keys, as [reverse] asks. *)
Definition key_order `{Externals} (metric : string) (reverse : bool) (p q : pixel) : Prop :=
  if reverse then float_le (metric_key metric q) (metric_key metric p)
  else float_le (metric_key metric p) (metric_key metric q).

(* ================================================================= *)
(** ** Vocabulary of the further properties *)

(** The pixels of an array along a span, in scan order: what [pixel_sort]
    gathers in [span_pixels] (lines 120 and 125). *)
Definition read_span {A} (a : ndarray A) (horizontal : bool) (sp : span) : result (list A) :=
  let '(line, start, stop) := sp in
  comprehension (line_cell a horizontal line) (range start stop).

(** The positions of a span in the row-major cells of an array of width
    [w]. *)
Definition span_cells (w : nat) (horizontal : bool) (sp : span) : list nat :=
  let '(line, start, stop) := sp in
  (λ i, if horizontal then line * w + i else i * w + line) <$> range start stop.

(** The offset of a covered position in its span. *)
Definition span_offset (horizontal : bool) (sp : span) (y x : nat) : nat :=
  (if horizontal then x else y) - sp.1.2.

(** The cell [create_mask] computes for a pixel without jitter: the
    threshold rule, negated when [invert] is set. *)
Definition selected `{Externals} (low high : float) (channel : string) (invert : bool)
    (p : pixel) : bool :=
  if invert then negb (cell_rule low high channel p) else cell_rule low high channel p.

(** The mask with that cell at every position. *)
Definition threshold_mask `{Externals} (img : image) (low high : float) (channel : string)
    (invert : bool) : ndarray bool :=
  NdArray (height img) (width img) (selected low high channel invert <$> cells img).

(** The draws of [n] successive calls of
    [np.random.uniform(-random_offset, random_offset)], and the generator
    they leave. *)
Fixpoint draws `{Externals} (random_offset : float) (n : nat) (g : rng) : list float * rng :=
  match n with
  | 0 => ([], g)
  | S n =>
      let '(u, g) := uniform (- random_offset)%float random_offset g in
      let '(us, g) := draws random_offset n g in
      (u :: us, g)
  end.

(** The rule a mask cell follows under jitter, for the draw [u] of its
    pixel. *)
Definition jittered_rule `{Externals} (low high : float) (channel : string)
    (p : pixel) (u : float) : bool :=
  in_thresholds low high (np_clip (channel_metric channel p + u)%float 0%float 1%float).

Definition jittered_mask `{Externals} (img : image) (low high : float) (channel : string)
    (invert : bool) (us : list float) : ndarray bool :=
  NdArray (height img) (width img)
    (zip_with (λ p u, if invert then negb (jittered_rule low high channel p u)
                      else jittered_rule low high channel p u)
       (cells img) us).

(** The mask under jitter once the first [k] cells in row-major order have
    been visited, for the draws [us] made so far. *)
Definition jittered_partial_mask `{Externals} (img : image) (low high : float)
    (channel : string) (us : list float) (k : nat) : ndarray bool :=
  NdArray (height img) (width img)
    (zip_with (jittered_rule low high channel) (take k (cells img)) us
     ++ replicate (height img * width img - k) false).

(** The state of the loops of [create_mask] under jitter after [k] turns,
    from the generator [g]. *)
Definition visited `{Externals} (img : image) (low high : float) (channel : string)
    (random_offset : float) (g : rng) (k : nat) : ndarray bool * rng :=
  (jittered_partial_mask img low high channel (draws random_offset k g).1 k,
   (draws random_offset k g).2).

(** The channel values of the image type, [np.uint8]. *)
Definition uint8 (v : Z) : Prop := (0 ≤ v ≤ 255)%Z.

Definition valid_pixel (p : pixel) : Prop :=
  uint8 (red p) ∧ uint8 (green p) ∧ uint8 (blue p).

Definition uint8_values : list Z := Z.of_nat <$> seq 0 256.

(** The three metrics that read one channel, and the channel they read. *)
Definition is_rgb (metric : string) : bool :=
  String.eqb metric "r" || String.eqb metric "g" || String.eqb metric "b".

Definition channel_value (metric : string) (p : pixel) : Z :=
  if String.eqb metric "r" then red p
  else if String.eqb metric "g" then green p
  else blue p.

Definition channel_order (metric : string) (reverse : bool) (p q : pixel) : Prop :=
  if reverse then (channel_value metric q ≤ channel_value metric p)%Z
  else (channel_value metric p ≤ channel_value metric q)%Z.

(** The three terms of [luminance], and its range. *)
Definition luminance_term (c : float) (v : Z) : float :=
  (c * (float_of_uint8 v / 255))%float.

Definition in_unit_interval (l : float) : bool := (0 <=? l)%float && (l <? 1)%float.

(** A check of [f] on every triple of three lists. *)
Definition forallb3 {A} (f : A → A → A → bool) (l1 l2 l3 : list A) : bool :=
  forallb (λ a, forallb (λ b, forallb (f a b) l3) l2) l1.

(** [float(v)] is no NaN and compares as the integers do. *)
Definition float_order_kept (v w : Z) : bool :=
  negb (is_nan (float_of_uint8 v))
  && Bool.eqb (float_of_uint8 v <=? float_of_uint8 w)%float (v <=? w)%Z.

(** The array with rows and columns exchanged: cell (x, y) of the transpose
    is cell (y, x) of the array. *)
Definition transpose {A} `{!Inhabited A} (a : ndarray A) : ndarray A :=
  NdArray (width a) (height a)
    ((λ k, cells a !!! (k `mod` height a * width a + k `div` height a))
     <$> seq 0 (width a * height a)).

(* ================================================================= *)
(** ** A stand-in for the library calls *)

(** Used to run the definitions on examples. [RGB_to_HSL] is exact on greys
    (hue 0, saturation 0, lightness the mid-range); [power] is exact at the
    exponents 2, 1 and -1 of the examples; the generator always draws the
    lower end of the interval. *)
Definition example_externals : Externals := {|
  RGB_to_HSL := λ '(r, g, b),
    (0%float, 0%float,
     ((np_maximum r (np_maximum g b) + np_minimum r (np_minimum g b)) / 2)%float);
  power := λ x e,
    if (e =? 2)%float then (x * x)%float
    else if (e =? -1)%float then (1 / x)%float
    else x;
  rng := nat;
  uniform := λ low high n, (low, S n)
|}.

(** A store with one array, at reference 0. *)
Definition example_state (a : image) : @state example_externals :=
  @State example_externals {[ 0 := a ]} 0.

Definition grey (v : Z) : pixel := (v, v, v).

(** A 1x5 grey row (luminances near 0.1, 0.9, 0.9, 0.2, 0.95), a 1x1 white
    image and a 3x2 grey image. *)
Definition example_row : image :=
  NdArray 1 5 [grey 26; grey 230; grey 230; grey 51; grey 242].

Definition white_dot : image := NdArray 1 1 [grey 255].

(** A 1x1 image of a light grey. *)
Definition grey_dot : image := NdArray 1 1 [grey 200].

Definition example_grid : image :=
  NdArray 3 2 [grey 200; grey 10; grey 100; grey 20; grey 50; grey 30].

Definition example_mask : ndarray bool :=
  NdArray 2 5 [false; true; true; false; true;
               true; true; false; false; false].

(** A 2x3 grid of false cells, a 2x3 grid of true cells, and three pixels
    with different blue channels. *)
Definition blank_mask : ndarray bool := NdArray 2 3 (replicate 6 false).

Definition solid_mask : ndarray bool := NdArray 2 3 (replicate 6 true).

Definition example_span : list pixel := [(1, 2, 9); (1, 2, 3); (1, 2, 5)]%Z.

(* ================================================================= *)
(** * Properties *)

(** ** Order facts of binary64 comparisons

    Proved on the specification floats behind the primitive ones; NaN is
    covered wherever a statement has no side condition. *)

Local Ltac sf_cases :=
  repeat match goal with
         | f : spec_float |- _ => destruct f as [[]|[]| |[] ? ?]
         end;
  cbn; try congruence;
  change (Pos.compare_cont Eq) with Pos.compare;
  repeat match goal with
         | |- context [Z.compare ?a ?b] =>
             lazymatch goal with
             | _ : CompareSpec _ _ _ (Z.compare a b) |- _ => fail
             | _ => pose proof (Z.compare_spec a b)
             end
         | |- context [Pos.compare ?a ?b] =>
             lazymatch goal with
             | _ : CompareSpec _ _ _ (Pos.compare a b) |- _ => fail
             | _ => pose proof (Pos.compare_spec a b)
             end
         end;
  repeat match goal with
         | H : CompareSpec _ _ _ ?c |- _ => destruct H
         end;
  cbn; try congruence; try lia.

Lemma SFleb_trans (a b c : spec_float) :
  SFleb a b = true → SFleb b c = true → SFleb a c = true.
Proof. unfold SFleb. sf_cases. Qed.

Lemma SFltb_not_leb (a b : spec_float) :
  SFltb a b = true → SFleb b a = false.
Proof. unfold SFleb, SFltb. sf_cases. Qed.

Lemma SFltb_leb (a b : spec_float) :
  SFltb a b = true → SFleb a b = true.
Proof. unfold SFleb, SFltb. sf_cases. Qed.

Lemma SFeqb_not_ltb (a b k : spec_float) :
  SFeqb a k = true → SFeqb b k = true → SFltb a b = false.
Proof. unfold SFeqb, SFltb. sf_cases. Qed.

Lemma SFnot_ltb_leb (a b : spec_float) :
  SFeqb a a = true → SFeqb b b = true → SFltb a b = false → SFleb b a = true.
Proof. unfold SFeqb, SFleb, SFltb. sf_cases. Qed.

Lemma float_le_trans (a b c : float) :
  float_le a b → float_le b c → float_le a c.
Proof. unfold float_le. rewrite !FloatAxioms.leb_spec. apply SFleb_trans. Qed.

Lemma float_lt_not_le (a b : float) :
  float_lt a b → (b <=? a)%float = false.
Proof. unfold float_lt. rewrite FloatAxioms.leb_spec, FloatAxioms.ltb_spec. apply SFltb_not_leb. Qed.

Lemma float_lt_le (a b : float) : float_lt a b → float_le a b.
Proof. unfold float_lt, float_le. rewrite FloatAxioms.leb_spec, FloatAxioms.ltb_spec. apply SFltb_leb. Qed.

Lemma float_eq_not_lt (a b k : float) :
  float_eq a k → float_eq b k → (a <? b)%float = false.
Proof. unfold float_eq. rewrite !FloatAxioms.eqb_spec, FloatAxioms.ltb_spec. apply SFeqb_not_ltb. Qed.

Lemma float_not_lt_le (a b : float) :
  is_nan a = false → is_nan b = false → (a <? b)%float = false → float_le b a.
Proof.
  unfold is_nan, float_le. rewrite !negb_false_iff, !FloatAxioms.eqb_spec, FloatAxioms.ltb_spec, FloatAxioms.leb_spec.
  apply SFnot_ltb_leb.
Qed.

Lemma float_lt_not_eq (a b : float) : float_lt a b → (b =? a)%float = false.
Proof.
  unfold float_lt. rewrite FloatAxioms.eqb_spec, FloatAxioms.ltb_spec.
  generalize (Prim2SF a) (Prim2SF b). intros x y. unfold SFeqb, SFltb. sf_cases.
Qed.

(* ================================================================= *)
(** ** The result monad and the loops *)

Lemma bind_Ok_l {A B} (a : A) (f : A → result B) : Ok a ≫= f = f a.
Proof. done. Qed.

Lemma for_each_cons {X S} (x : X) (xs : list X) (body : X → S → result S) (s : S) :
  for_each (x :: xs) body s = body x s ≫= for_each xs body.
Proof. done. Qed.

Lemma index_Ok {A} (l : list A) (i : nat) (v : A) :
  index l i = Ok v ↔ l !! i = Some v.
Proof. unfold index. destruct (l !! i); split; congruence. Qed.

Lemma index_lt {A} (l : list A) (i : nat) :
  i < length l → ∃ v, index l i = Ok v ∧ l !! i = Some v.
Proof.
  intros Hi. destruct (lookup_lt_is_Some_2 l i Hi) as [v Hv].
  exists v. by rewrite index_Ok.
Qed.

Lemma comprehension_fmap {A B} (f : A → result B) (g : A → B) (xs : list A) :
  Forall (λ x, f x = Ok (g x)) xs → comprehension f xs = Ok (g <$> xs).
Proof.
  induction 1 as [|x xs Hx _ IH]; cbn; [done|]. by rewrite Hx, IH.
Qed.

Lemma comprehension_index_all {A} (l : list A) :
  comprehension (index l) (range 0 (length l)) = Ok l.
Proof.
  unfold range. rewrite Nat.sub_0_r.
  assert (∀ pre, comprehension (index (pre ++ l)) (seq (length pre) (length l)) = Ok l) as Hgen.
  { induction l as [|x l IH]; intros pre; [done|].
    cbn [length seq comprehension].
    assert (index (pre ++ x :: l) (length pre) = Ok x) as ->.
    { apply index_Ok. by apply list_lookup_middle. }
    specialize (IH (pre ++ [x])). rewrite <- app_assoc, length_app in IH. cbn in IH.
    rewrite Nat.add_1_r in IH. cbn. by rewrite IH. }
  apply (Hgen []).
Qed.

(* ================================================================= *)
(** ** The stable sort behind [sorted] *)

Section SortedFacts.
Context {A K : Type} (lt : K → K → bool).

Lemma insort_perm (x : K * A) (l : list (K * A)) : insort lt x l ≡ₚ x :: l.
Proof.
  induction l as [|y l IH]; cbn; [done|].
  destruct (lt y.1 x.1); [|done]. rewrite IH. apply Permutation_swap.
Qed.

Lemma stable_sort_perm (l : list (K * A)) : stable_sort lt l ≡ₚ l.
Proof.
  induction l as [|x l IH]; cbn; [done|]. by rewrite insort_perm, IH.
Qed.

Lemma sort_decorated_perm (descending : bool) (l : list (K * A)) :
  sort_decorated lt descending l ≡ₚ l.
Proof.
  unfold sort_decorated. destruct descending; [|apply stable_sort_perm].
  by rewrite reverse_Permutation, stable_sort_perm, reverse_Permutation.
Qed.

(** The sort looks at keys only: it commutes with any change of payload. *)
Lemma insort_payload {B} (f : A → B) (x : K * A) (l : list (K * A)) :
  insort lt (prod_map id f x) (prod_map id f <$> l) = prod_map id f <$> insort lt x l.
Proof.
  destruct x as [k a]. induction l as [|[k' a'] l IH]; cbn; [done|].
  destruct (lt k' k); cbn; [|done]. f_equal. apply IH.
Qed.

Lemma stable_sort_payload {B} (f : A → B) (l : list (K * A)) :
  stable_sort lt (prod_map id f <$> l) = prod_map id f <$> stable_sort lt l.
Proof.
  induction l as [|x l IH]; cbn; [done|].
  fold (stable_sort lt (prod_map id f <$> l)). rewrite IH. apply insort_payload.
Qed.

Lemma sort_decorated_payload {B} (f : A → B) (descending : bool) (l : list (K * A)) :
  sort_decorated lt descending (prod_map id f <$> l)
  = prod_map id f <$> sort_decorated lt descending l.
Proof.
  unfold sort_decorated. destruct descending; [|apply stable_sort_payload].
  by rewrite <- fmap_reverse, stable_sort_payload, <- fmap_reverse.
Qed.

(** Stability: elements whose keys are never [lt] one another keep their
    order. *)
Section Stable.
Context (sel : K → bool).
Hypothesis sel_unordered : ∀ a b, sel a = true → sel b = true → lt a b = false.

Lemma insort_filter (x : K * A) (l : list (K * A)) :
  filter (λ d, sel d.1 = true) (insort lt x l) = filter (λ d, sel d.1 = true) (x :: l).
Proof.
  induction l as [|y l IH]; cbn; [done|].
  destruct (lt y.1 x.1) eqn:Hlt; [|done].
  rewrite filter_cons, IH, !filter_cons.
  destruct (decide (sel y.1 = true)) as [Hy|Hy], (decide (sel x.1 = true)) as [Hx|Hx]; try done.
  by rewrite (sel_unordered _ _ Hy Hx) in Hlt.
Qed.

Lemma stable_sort_filter (l : list (K * A)) :
  filter (λ d, sel d.1 = true) (stable_sort lt l) = filter (λ d, sel d.1 = true) l.
Proof.
  induction l as [|x l IH]; cbn; [done|].
  fold (stable_sort lt l). by rewrite insort_filter, !filter_cons, IH.
Qed.

Lemma sort_decorated_filter (descending : bool) (l : list (K * A)) :
  filter (λ d, sel d.1 = true) (sort_decorated lt descending l)
  = filter (λ d, sel d.1 = true) l.
Proof.
  unfold sort_decorated. destruct descending; [|apply stable_sort_filter].
  by rewrite filter_reverse, stable_sort_filter, filter_reverse, reverse_involutive.
Qed.
End Stable.

(** Order: where [lt] is the strict part of a total preorder [le] (on the
    keys that satisfy [P]), the result is sorted. *)
Section Ordered.
Context (P : K → Prop) (le : K → K → Prop).
Hypothesis lt_le : ∀ a b, P a → P b → lt a b = true → le a b.
Hypothesis not_lt_le : ∀ a b, P a → P b → lt a b = false → le b a.
Hypothesis le_trans : ∀ a b c, le a b → le b c → le a c.

Lemma insort_sorted (x : K * A) (l : list (K * A)) :
  P x.1 → Forall (λ d, P d.1) l →
  StronglySorted (λ d1 d2, le d1.1 d2.1) l →
  StronglySorted (λ d1 d2, le d1.1 d2.1) (insort lt x l).
Proof.
  intros Hx HP Hs. induction Hs as [|y l Hs IH Hy]; cbn.
  { repeat constructor. }
  apply Forall_cons in HP as [HPy HP].
  destruct (lt y.1 x.1) eqn:Hlt.
  - constructor; [by apply IH|].
    rewrite insort_perm. constructor; [by apply lt_le|done].
  - assert (le x.1 y.1) as Hxy by by apply not_lt_le.
    constructor; [by constructor|].
    constructor; [done|]. eapply Forall_impl; [exact Hy|].
    intros d Hd. by eapply le_trans.
Qed.

Lemma stable_sort_sorted (l : list (K * A)) :
  Forall (λ d, P d.1) l → StronglySorted (λ d1 d2, le d1.1 d2.1) (stable_sort lt l).
Proof.
  induction 1 as [|x l Hx HP IH]; cbn; [constructor|].
  apply insort_sorted; [done| |done].
  fold (stable_sort lt l). by rewrite stable_sort_perm.
Qed.
End Ordered.

(** Keys already in increasing order: nothing moves. *)
Lemma stable_sort_increasing (l : list (K * A)) :
  StronglySorted (λ d1 d2, lt d2.1 d1.1 = false) l → stable_sort lt l = l.
Proof.
  induction 1 as [|x l Hs IH Hx]; cbn; [done|].
  fold (stable_sort lt l). rewrite IH.
  destruct Hx as [|y l Hy _]; cbn; [done|]. by rewrite Hy.
Qed.

(** Keys in strictly decreasing order: the list is reversed. *)
Lemma insort_last (x : K * A) (l : list (K * A)) :
  Forall (λ d, lt d.1 x.1 = true) l → insort lt x l = l ++ [x].
Proof.
  induction 1 as [|y l Hy _ IH]; cbn; [done|]. by rewrite Hy, IH.
Qed.

Lemma stable_sort_decreasing (l : list (K * A)) :
  StronglySorted (λ d1 d2, lt d2.1 d1.1 = true) l → stable_sort lt l = reverse l.
Proof.
  induction 1 as [|x l Hs IH Hx]; [done|].
  change (stable_sort lt (x :: l)) with (insort lt x (stable_sort lt l)).
  rewrite IH, reverse_cons. apply insort_last. by apply Forall_reverse.
Qed.

End SortedFacts.

(** Two facts on [StronglySorted] the library does not state. *)
Lemma StronglySorted_fmap_on {A B} (f : A → B) (Q : A → Prop)
    (R1 : relation A) (R2 : relation B) (l : list A) :
  (∀ x y, Q x → Q y → R1 x y → R2 (f x) (f y)) →
  Forall Q l → StronglySorted R1 l → StronglySorted R2 (f <$> l).
Proof.
  intros HR HQ Hs. induction Hs as [|x l _ IH Hx]; csimpl; [constructor|].
  apply Forall_cons in HQ as [Hqx HQ]. constructor; [by apply IH|].
  rewrite Forall_fmap. rewrite Forall_forall in Hx, HQ |- *.
  intros y Hy. cbn. apply HR; auto.
Qed.

Lemma StronglySorted_flip_reverse {A} (R : relation A) (l : list A) :
  StronglySorted R l → StronglySorted (flip R) (reverse l).
Proof.
  induction 1 as [|x l _ IH Hx]; [constructor|].
  rewrite reverse_cons. apply StronglySorted_app_2; [|done|repeat constructor].
  intros x1 x2 Hx1 ->%list_elem_of_singleton. rewrite elem_of_reverse in Hx1.
  rewrite Forall_forall in Hx. unfold flip. by apply Hx.
Qed.

(* ================================================================= *)
(** ** [sort_span] *)

Lemma lookup_total_fmap_seq {A} `{Inhabited A} (l : list A) :
  (λ i, l !!! i) <$> seq 0 (length l) = l.
Proof.
  apply list_eq. intros i. rewrite list_lookup_fmap.
  destruct (decide (i < length l)) as [Hi|Hi].
  - rewrite lookup_seq_lt by done. cbn. symmetry. by apply list_lookup_lookup_total_lt.
  - rewrite lookup_seq_ge, lookup_ge_None_2 by lia. done.
Qed.

Lemma zip_payload {A B C} (f : B → C) (l : list A) (k : list B) :
  zip l (f <$> k) = prod_map id f <$> zip l k.
Proof. revert k. induction l as [|x l IH]; intros [|y k]; cbn; f_equal; auto. Qed.

(** [sorted] on the indices and the gather that follows amount to sorting
    the pixels decorated with their keys. *)
Lemma sorted_gather {K} (lt : K → K → bool) (ks : list K) (px : list pixel)
    (reverse : bool) :
  length ks = length px →
  sorted lt (range 0 (length px)) (index ks) reverse ≫= comprehension (index px)
  = Ok (sort_decorated lt reverse (zip ks px)).*2.
Proof.
  intros Hlen. unfold sorted. rewrite <- Hlen at 1.
  rewrite comprehension_index_all. cbn.
  set (D := zip ks (range 0 (length px))).
  assert (sort_decorated lt reverse D ≡ₚ D) as Hperm by apply sort_decorated_perm.
  assert (zip ks px = prod_map id (λ i, px !!! i) <$> D) as HD.
  { unfold D, range. by rewrite Nat.sub_0_r, <- zip_payload, lookup_total_fmap_seq. }
  rewrite (comprehension_fmap _ (λ i, px !!! i)).
  - rewrite HD, sort_decorated_payload. f_equal.
    rewrite <- !list_fmap_compose. apply list_fmap_ext. by intros ? [??].
  - rewrite Forall_fmap, Hperm, <- Forall_fmap.
    unfold D. rewrite snd_zip by (unfold range; rewrite length_seq; lia).
    unfold range. rewrite Nat.sub_0_r. apply Forall_forall. intros i Hi%elem_of_seq.
    apply index_Ok, list_lookup_lookup_total_lt. lia.
Qed.

Lemma sort_keys_recognised `{Externals} (px : list pixel) (metric : string) :
  recognised metric = true → sort_keys px metric = FloatKeys (metric_key metric <$> px).
Proof.
  unfold recognised, sort_keys, metric_key.
  destruct (String.eqb metric "luminance"); [done|].
  destruct (String.eqb metric "r"); [done|].
  destruct (String.eqb metric "g"); [done|].
  destruct (String.eqb metric "b"); [done|].
  cbn. by intros ->.
Qed.

Lemma sort_keys_fallback `{Externals} (px : list pixel) (metric : string) :
  recognised metric = false →
  sort_keys px metric = IntKeys (Z.of_nat <$> range 0 (length px)).
Proof.
  unfold recognised, sort_keys.
  destruct (String.eqb metric "luminance"); [done|].
  destruct (String.eqb metric "r"); [done|].
  destruct (String.eqb metric "g"); [done|].
  destruct (String.eqb metric "b"); [done|].
  cbn. by intros ->.
Qed.

Lemma sort_span_unfold `{Externals} (px : list pixel) (metric : string) (reverse : bool) :
  sort_span px metric reverse =
  match sort_keys px metric with
  | FloatKeys ks =>
      sorted PrimFloat.ltb (range 0 (length px)) (index ks) reverse
      ≫= comprehension (index px)
  | IntKeys ks =>
      sorted Z.ltb (range 0 (length px)) (index ks) reverse ≫= comprehension (index px)
  end.
Proof.
  unfold sort_span.
  destruct (sort_keys px metric) as [ks|ks];
    (destruct (sorted _ _ _ _) as [idx| |]; cbn; [|done..]);
    by destruct (comprehension _ _).
Qed.

Lemma sort_span_recognised `{Externals} (px : list pixel) (metric : string) (reverse : bool) :
  recognised metric = true →
  sort_span px metric reverse
  = Ok (sort_decorated PrimFloat.ltb reverse (decorate metric px)).*2.
Proof.
  intros Hm. rewrite sort_span_unfold, sort_keys_recognised by done.
  apply sorted_gather. by rewrite length_fmap.
Qed.

Lemma sort_span_unrecognised `{Externals} (px : list pixel) (metric : string) (reverse : bool) :
  recognised metric = false →
  sort_span px metric reverse
  = Ok (sort_decorated Z.ltb reverse (zip (Z.of_nat <$> range 0 (length px)) px)).*2.
Proof.
  intros Hm. rewrite sort_span_unfold, sort_keys_fallback by done.
  apply sorted_gather.
  unfold range. by rewrite length_fmap, length_seq, Nat.sub_0_r.
Qed.

Lemma decorate_keys `{Externals} (metric : string) (px : list pixel) :
  Forall (λ d, d.1 = metric_key metric d.2) (decorate metric px).
Proof.
  unfold decorate. induction px as [|p px IH]; cbn; constructor; done.
Qed.

Lemma decorate_snd `{Externals} (metric : string) (px : list pixel) :
  (decorate metric px).*2 = px.
Proof. unfold decorate. apply snd_zip. by rewrite length_fmap. Qed.

Lemma enumerated_increasing {A} (l : list A) (start n : nat) :
  StronglySorted (λ d1 d2 : Z * A, (d1.1 < d2.1)%Z) (zip (Z.of_nat <$> seq start n) l).
Proof.
  revert start n. induction l as [|x l IH]; intros start [|n]; cbn; try constructor.
  - apply IH.
  - apply Forall_forall. intros [k y] Hin. cbn.
    apply elem_of_zip_l in Hin. cbn in Hin.
    apply list_elem_of_fmap in Hin as (i & -> & Hi%elem_of_seq). lia.
Qed.

Lemma filter_decorated `{Externals} (metric : string) (sel : float → bool)
    (l : list (float * pixel)) :
  Forall (λ d, d.1 = metric_key metric d.2) l →
  filter (λ p, sel (metric_key metric p) = true) l.*2
  = (filter (λ d, sel d.1 = true) l).*2.
Proof.
  induction 1 as [|[k p] l Hd _ IH]; [done|]. cbn in Hd. subst k.
  csimpl. rewrite !filter_cons. cbn. rewrite IH.
  by destruct (decide (sel (metric_key metric p) = true)).
Qed.

Lemma filter_everything {A} (P : A → Prop) `{!∀ x, Decision (P x)} (l : list A) :
  Forall P l → filter P l = l.
Proof.
  induction 1 as [|x l Hx _ IH]; [done|]. by rewrite filter_cons_True, IH.
Qed.

(** [sort_span] raises nothing and permutes its input. *)
Lemma sort_span_total `{Externals} (span_pixels : list pixel) (metric : string)
    (reverse : bool) :
  ∃ sorted_pixels,
    sort_span span_pixels metric reverse = Ok sorted_pixels ∧
    sorted_pixels ≡ₚ span_pixels.
Proof.
  destruct (recognised metric) eqn:Hm.
  - rewrite sort_span_recognised by done. eexists; split; [done|].
    by rewrite sort_decorated_perm, decorate_snd.
  - rewrite sort_span_unrecognised by done. eexists; split; [done|].
    rewrite sort_decorated_perm, snd_zip; [done|].
    unfold range. rewrite length_fmap, length_seq. lia.
Qed.

(** C4: for every pixel sequence, every metric string and both sort orders,
    [sort_span] raises nothing and returns a permutation of its input; the
    empty sequence is returned as the empty sequence. *)
Theorem sort_span_permutation `{Externals} (span_pixels : list pixel)
    (metric : string) (reverse : bool) :
  (∃ sorted_pixels,
      sort_span span_pixels metric reverse = Ok sorted_pixels ∧
      sorted_pixels ≡ₚ span_pixels) ∧
  sort_span [] metric reverse = Ok [].
Proof.
  split; [apply sort_span_total|].
  destruct (sort_span_total [] metric reverse) as (out & -> & Hout).
  by apply Permutation_nil_r in Hout as ->.
Qed.

(** C3: under a recognised metric [sort_span] sorts stably by the key.
    Pixels whose keys are equal (Python's [==]) keep their original relative
    order: for every key value [k], the pixels with key [k] form the same
    sequence before and after. When all keys are equal the output is the
    input. When no key is a NaN the output is in ascending key order, or in
    descending order if [reverse] is set. *)
Theorem sort_span_stable `{Externals} (span_pixels : list pixel)
    (metric : string) (reverse : bool) :
  recognised metric = true →
  ∃ sorted_pixels,
    sort_span span_pixels metric reverse = Ok sorted_pixels ∧
    (∀ k : float,
       filter (λ p, float_eq (metric_key metric p) k) sorted_pixels
       = filter (λ p, float_eq (metric_key metric p) k) span_pixels) ∧
    ((∀ p q, p ∈ span_pixels → q ∈ span_pixels →
             float_eq (metric_key metric p) (metric_key metric q)) →
     sorted_pixels = span_pixels) ∧
    (Forall (λ p, is_nan (metric_key metric p) = false) span_pixels →
     StronglySorted (key_order metric reverse) sorted_pixels).
Proof.
  intros Hm. rewrite sort_span_recognised by done.
  set (D := decorate metric span_pixels).
  set (S := sort_decorated PrimFloat.ltb reverse D).
  assert (S ≡ₚ D) as Hperm by apply sort_decorated_perm.
  assert (Forall (λ d, d.1 = metric_key metric d.2) S) as HS.
  { rewrite Hperm. apply decorate_keys. }
  assert (∀ k : float,
            filter (λ p, float_eq (metric_key metric p) k) S.*2
            = filter (λ p, float_eq (metric_key metric p) k) span_pixels) as Hstable.
  { intros k. rewrite <- (decorate_snd metric span_pixels) at 1. fold D.
    pose proof (filter_decorated metric (λ a, (a =? k)%float)) as Hf. cbn in Hf.
    rewrite (list_filter_iff _ (λ p, (metric_key metric p =? k)%float = true)) by done.
    rewrite (list_filter_iff _ (λ p, (metric_key metric p =? k)%float = true) D.*2) by done.
    rewrite !Hf by (done || apply decorate_keys). f_equal.
    apply (sort_decorated_filter PrimFloat.ltb (λ a, (a =? k)%float)).
    intros a b Ha Hb. by apply (float_eq_not_lt a b k). }
  exists S.*2. split; [done|]. split; [exact Hstable|]. split.
  - intros Heq.
    assert (S.*2 ≡ₚ span_pixels) as HpermS.
    { rewrite Hperm. apply reflexive_eq, decorate_snd. }
    destruct span_pixels as [|p0 px].
    { by apply Permutation_nil_r. }
    pose proof (Hstable (metric_key metric p0)) as Hk.
    rewrite !filter_everything in Hk; [done| |].
    + apply Forall_forall. intros p Hp. apply Heq; [done|left].
    + apply Forall_forall. intros p Hp. apply Heq; [|left]. by rewrite <- HpermS.
  - intros Hnan.
    assert (Forall (λ d : float * pixel, is_nan d.1 = false) D) as HD.
    { unfold D, decorate. clear -Hnan.
      induction Hnan as [|p px Hp _ IH]; cbn; constructor; done. }
    assert (∀ l, Forall (λ d : float * pixel, is_nan d.1 = false) l →
                 StronglySorted (λ d1 d2, float_le d1.1 d2.1) (stable_sort PrimFloat.ltb l))
      as Hsorted.
    { intros l Hl.
      apply (stable_sort_sorted PrimFloat.ltb (λ a, is_nan a = false) float_le); [| | |done].
      - intros a b _ _. apply float_lt_le.
      - intros a b Ha Hb. by apply float_not_lt_le.
      - apply float_le_trans. }
    unfold S, sort_decorated, key_order in *. destruct reverse.
    + eapply (StronglySorted_fmap_on snd _ (flip (λ d1 d2, float_le d1.1 d2.1)));
        [|exact HS|].
      * intros [k1 p1] [k2 p2] Hk1 Hk2 Hle. unfold flip in Hle. cbn in *. by subst.
      * apply StronglySorted_flip_reverse, Hsorted. by apply Forall_reverse.
    + eapply (StronglySorted_fmap_on snd _ (λ d1 d2, float_le d1.1 d2.1));
        [|exact HS|by apply Hsorted].
      intros [k1 p1] [k2 p2] Hk1 Hk2 Hle. cbn in *. by subst.
Qed.

(** C1 as the code has it: under a metric outside the recognised set,
    [sort_span] returns the pixels unchanged when [reverse] is unset, and in
    reversed order when it is set. *)
Theorem sort_span_fallback `{Externals} (span_pixels : list pixel) (metric : string) :
  recognised metric = false →
  sort_span span_pixels metric false = Ok span_pixels ∧
  sort_span span_pixels metric true = Ok (reverse span_pixels).
Proof.
  intros Hm. rewrite !sort_span_unrecognised by done.
  set (D := zip (Z.of_nat <$> range 0 (length span_pixels)) span_pixels).
  assert (D.*2 = span_pixels) as HD.
  { apply snd_zip. unfold range. rewrite length_fmap, length_seq. lia. }
  assert (StronglySorted (λ d1 d2 : Z * pixel, (d1.1 < d2.1)%Z) D) as Hinc
    by apply enumerated_increasing.
  unfold sort_decorated. split; f_equal.
  - rewrite stable_sort_increasing; [done|].
    eapply (StronglySorted_fmap_on id (λ _, True)) in Hinc;
      [rewrite list_fmap_id in Hinc; exact Hinc| |by apply Forall_true].
    intros d1 d2 _ _ Hlt. cbn. lia.
  - rewrite stable_sort_decreasing.
    + by rewrite reverse_involutive, fmap_reverse, HD.
    + apply StronglySorted_flip_reverse in Hinc.
      eapply (StronglySorted_fmap_on id (λ _, True)) in Hinc;
        [rewrite list_fmap_id in Hinc; exact Hinc| |by apply Forall_true].
      intros d1 d2 _ _ Hlt. unfold flip in Hlt. cbn. lia.
Qed.

(* ================================================================= *)
(** ** Arrays *)

Lemma getitem_Ok {A} (a : ndarray A) (y x : nat) (v : A) :
  getitem a y x = Ok v ↔
  y < height a ∧ x < width a ∧ cells a !! (y * width a + x) = Some v.
Proof.
  unfold getitem, in_shape.
  destruct (bool_decide_reflect (y < height a)) as [Hy|Hy],
           (bool_decide_reflect (x < width a)) as [Hx|Hx]; cbn;
    rewrite ?index_Ok; split; try done; try tauto; intros (? & ? & ?); done.
Qed.

Lemma flat_index_lt (h w y x : nat) : y < h → x < w → y * w + x < h * w.
Proof. nia. Qed.

Lemma getitem_in_shape {A} (a : ndarray A) (y x : nat) :
  well_formed a → y < height a → x < width a → ∃ v, getitem a y x = Ok v.
Proof.
  intros Hwf Hy Hx.
  destruct (lookup_lt_is_Some_2 (cells a) (y * width a + x)) as [v Hv].
  { rewrite Hwf. by apply flat_index_lt. }
  exists v. by apply getitem_Ok.
Qed.

Lemma setitem_in_shape {A} (a : ndarray A) (y x : nat) (v : A) :
  y < height a → x < width a →
  setitem a y x v = Ok (NdArray (height a) (width a) (<[y * width a + x := v]> (cells a))).
Proof.
  intros Hy Hx. unfold setitem, in_shape. by rewrite !bool_decide_eq_true_2.
Qed.

(** A loop keeps what every turn keeps. *)
Lemma for_each_invariant {X S} (I : S → Prop) (xs : list X) (body : X → S → result S) (s : S) :
  (∀ x s, x ∈ xs → I s → ∃ s', body x s = Ok s' ∧ I s') →
  I s → ∃ s', for_each xs body s = Ok s' ∧ I s'.
Proof.
  revert s. induction xs as [|x xs IH]; intros s Hbody Hs; cbn; [eauto|].
  destruct (Hbody x s) as (s1 & -> & Hs1); [left|done|]. cbn.
  apply IH; [|done]. intros x' s' Hx'. apply Hbody. by right.
Qed.

Lemma elem_of_range (i start stop : nat) : i ∈ range start stop ↔ start ≤ i < stop.
Proof. unfold range. rewrite elem_of_seq. lia. Qed.

(* ================================================================= *)
(** ** [create_mask] *)

Lemma mask_value_valid `{Externals} (channel : string) (p : pixel) :
  valid_channel channel = true → mask_value channel p = Ok (channel_metric channel p).
Proof.
  unfold valid_channel, is_hsl, mask_value, channel_metric.
  destruct (String.eqb channel "luminance"); [done|].
  destruct (rgb_to_hsl p) as [[h s] l]. cbn.
  destruct (String.eqb channel "hsl_h"); [done|].
  destruct (String.eqb channel "hsl_s"); [done|].
  by destruct (String.eqb channel "hsl_l").
Qed.

Lemma not_in_thresholds (low high v : float) :
  float_lt high low → in_thresholds low high v = false.
Proof.
  intros Hlt. unfold in_thresholds.
  destruct (low <=? v)%float eqn:H1, (v <=? high)%float eqn:H2; try done.
  pose proof (float_le_trans _ _ _ H1 H2) as Hle.
  apply float_lt_not_le in Hlt. unfold float_le in Hle. congruence.
Qed.

Section MaskLoops.
Context `{Externals} (img : image) (low high : float) (channel : string).
Hypothesis img_wf : well_formed img.
Hypothesis channel_ok : valid_channel channel = true.

(** With [low > high] no turn of the loops writes to the mask. *)
Lemma mask_cell_empty_range (random_offset : float) (y x : nat)
    (mask : ndarray bool) (g : rng) :
  float_lt high low → y < height img → x < width img →
  ∃ g', mask_cell img low high channel random_offset y x (mask, g) = Ok (mask, g').
Proof.
  intros Hlt Hy Hx. unfold mask_cell.
  destruct (getitem_in_shape img y x) as [p ->]; [done..|]. cbn.
  rewrite mask_value_valid by done. cbn.
  destruct (0 <? random_offset)%float.
  - destruct (uniform _ _ _) as [u g'].
    fold (in_thresholds low high (np_clip (channel_metric channel p + u) 0 1)).
    rewrite not_in_thresholds by done. eauto.
  - fold (in_thresholds low high (channel_metric channel p)).
    rewrite not_in_thresholds by done. eauto.
Qed.

(** Without jitter, a turn at (y, x) settles the cell [y * width + x]. *)
Lemma mask_cell_no_jitter (y x : nat) (g : rng) :
  y < height img → x < width img →
  mask_cell img low high channel 0 y x
    (partial_mask img low high channel (y * width img + x), g)
  = Ok (partial_mask img low high channel (S (y * width img + x)), g).
Proof.
  intros Hy Hx. unfold mask_cell.
  destruct (getitem_in_shape img y x) as [p Hp]; [done..|]. rewrite Hp. cbn.
  rewrite mask_value_valid by done. cbn.
  apply getitem_Ok in Hp as (_ & _ & Hp).
  set (k := y * width img + x) in *.
  assert (k < height img * width img) as Hk by by apply flat_index_lt.
  assert (length (cell_rule low high channel <$> take k (cells img)) = k) as Hlen.
  { rewrite length_fmap, length_take_le; [done|]. rewrite img_wf. lia. }
  assert (partial_mask img low high channel (S k)
          = NdArray (height img) (width img)
              ((cell_rule low high channel <$> take k (cells img))
               ++ cell_rule low high channel p
                  :: replicate (height img * width img - S k) false)) as ->.
  { unfold partial_mask. f_equal. rewrite (take_S_r _ _ p) by done.
    by rewrite fmap_app, <- app_assoc. }
  assert (partial_mask img low high channel k
          = NdArray (height img) (width img)
              ((cell_rule low high channel <$> take k (cells img))
               ++ false :: replicate (height img * width img - S k) false)) as Hk0.
  { unfold partial_mask. f_equal. f_equal.
    replace (height img * width img - k) with (S (height img * width img - S k)) by lia.
    done. }
  fold (in_thresholds low high (channel_metric channel p)).
  fold (cell_rule low high channel p).
  destruct (cell_rule low high channel p) eqn:Hrule; [|by rewrite Hk0].
  rewrite Hk0, setitem_in_shape by done. cbn. fold k.
  rewrite insert_app_r_alt by lia. by rewrite Hlen, Nat.sub_diag.
Qed.

Lemma mask_row_no_jitter (y : nat) (g : rng) (n x : nat) :
  y < height img → x + n ≤ width img →
  for_each (seq x n) (mask_cell img low high channel 0 y)
    (partial_mask img low high channel (y * width img + x), g)
  = Ok (partial_mask img low high channel (y * width img + x + n), g).
Proof.
  intros Hy. revert x. induction n as [|n IH]; intros x Hx.
  { by rewrite Nat.add_0_r. }
  cbn [seq]. rewrite for_each_cons, mask_cell_no_jitter, bind_Ok_l by lia.
  replace (S (y * width img + x)) with (y * width img + S x) by lia.
  rewrite IH by lia. do 3 f_equal. lia.
Qed.

Lemma mask_rows_no_jitter (g : rng) (n y : nat) :
  y + n ≤ height img →
  for_each (seq y n) (λ y, for_each (seq 0 (width img))
                             (mask_cell img low high channel 0 y))
    (partial_mask img low high channel (y * width img), g)
  = Ok (partial_mask img low high channel ((y + n) * width img), g).
Proof.
  revert y. induction n as [|n IH]; intros y Hy.
  { by rewrite Nat.add_0_r. }
  cbn [seq]. rewrite for_each_cons. cbv beta.
  pose proof (mask_row_no_jitter y g (width img) 0) as Hrow.
  rewrite !Nat.add_0_r in Hrow. rewrite Hrow, bind_Ok_l by lia.
  replace (y * width img + width img) with (S y * width img) by lia.
  rewrite IH by lia. do 3 f_equal. lia.
Qed.

End MaskLoops.

Lemma partial_mask_start `{Externals} (img : image) (low high : float) (channel : string) :
  partial_mask img low high channel 0
  = NdArray (height img) (width img) (replicate (height img * width img) false).
Proof. unfold partial_mask. by rewrite take_0, Nat.sub_0_r. Qed.

Lemma partial_mask_end `{Externals} (img : image) (low high : float) (channel : string) :
  well_formed img →
  partial_mask img low high channel (height img * width img)
  = NdArray (height img) (width img) (cell_rule low high channel <$> cells img).
Proof.
  intros Hwf. unfold partial_mask.
  by rewrite take_ge, Nat.sub_diag, app_nil_r by (rewrite Hwf; lia).
Qed.

Lemma create_mask_unfold `{Externals} (img : image) (low high : float)
    (channel : string) (invert : bool) (random_offset : float) (g : rng) :
  create_mask img low high channel invert random_offset g
  = for_each (seq 0 (height img))
      (λ y, for_each (seq 0 (width img))
              (mask_cell img low high channel random_offset y))
      (NdArray (height img) (width img) (replicate (height img * width img) false), g)
    ≫= λ st, Ok (if invert then invert_mask st.1 else st.1, st.2).
Proof.
  unfold create_mask, range. rewrite !Nat.sub_0_r. cbv zeta.
  match goal with |- ?m ≫= _ = ?m' ≫= _ => change m with m'; destruct m' as [[??]| |] end;
    done.
Qed.

(** C8: without jitter and for a valid channel, [create_mask] returns a mask
    of the image's shape in which a cell is true exactly when
    [low <= metric(pixel) <= high], both ends included; with [invert] set
    every cell is the negation of that. The random generator is not used. *)
Theorem create_mask_thresholds `{Externals} (img : image) (low high : float)
    (channel : string) (invert : bool) (g : rng) :
  well_formed img → valid_channel channel = true →
  ∃ mask,
    create_mask img low high channel invert 0 g = Ok (mask, g) ∧
    height mask = height img ∧ width mask = width img ∧
    ∀ y x p, getitem img y x = Ok p →
      let selected := in_thresholds low high (channel_metric channel p) in
      getitem mask y x = Ok (if invert then negb selected else selected).
Proof.
  intros Hwf Hch. rewrite create_mask_unfold.
  rewrite <- partial_mask_start with (low := low) (high := high) (channel := channel).
  pose proof (mask_rows_no_jitter img low high channel Hwf Hch g (height img) 0) as Hrows.
  cbn [Nat.mul Nat.add] in Hrows. rewrite Hrows by lia. clear Hrows.
  rewrite bind_Ok_l. cbn [fst snd]. rewrite partial_mask_end by done.
  eexists. split; [done|].
  assert (∀ y x p, getitem img y x = Ok p →
            getitem (NdArray (height img) (width img)
                       (cell_rule low high channel <$> cells img)) y x
            = Ok (cell_rule low high channel p)) as Hcell.
  { intros y x p (Hy & Hx & Hp)%getitem_Ok. apply getitem_Ok. cbn.
    by rewrite list_lookup_fmap, Hp. }
  destruct invert; cbn; (split; [done|split; [done|]]); intros y x p Hp.
  - apply Hcell in Hp. apply getitem_Ok in Hp as (Hy & Hx & Hp). cbn in Hy, Hx, Hp.
    apply getitem_Ok. cbn. by rewrite list_lookup_fmap, Hp.
  - by apply Hcell.
Qed.


(* ================================================================= *)
(** ** [identify_spans] *)

Section ScanLine.
Context (cell : nat → result bool) (n line : nat).
Hypothesis cell_total : ∀ i, i < n → ∃ b, cell i = Ok b.

(** The inner loop stops at the first false cell or at the end of the line,
    within its fuel. *)
Lemma skip_run_spec (fuel i : nat) :
  n < i + fuel → i ≤ n →
  ∃ j, skip_run fuel cell n i = Ok j ∧
       i ≤ j ∧ j ≤ n ∧
       (∀ t, i ≤ t < j → cell t = Ok true) ∧
       (j < n → cell j = Ok false).
Proof.
  revert i. induction fuel as [|fuel IH]; intros i Hfuel Hi; [lia|].
  cbn [skip_run]. destruct (bool_decide_reflect (i < n)) as [Hlt|Hge].
  - destruct (cell_total i Hlt) as [[] Hc]; rewrite Hc, bind_Ok_l.
    + destruct (IH (i + 1)) as (j & -> & Hij & Hjn & Htrue & Hfalse); [lia..|].
      exists j. split_and!; try done; try lia.
      intros t Ht. destruct (decide (t = i)) as [->|]; [done|]. apply Htrue. lia.
    + exists i. split_and!; try done; try lia; intros t Ht; lia.
  - exists i. split_and!; try done; try lia; intros t Ht; lia.
Qed.

(** The spans the outer loop appends from offset [i] on. *)
Lemma scan_line_spec (fuel i : nat) (acc : list span) :
  n < i + fuel → 0 < fuel → i ≤ S n →
  (0 < i → i ≤ n → cell (i - 1) = Ok false) →
  ∃ new, scan_line fuel cell n line i acc = Ok (acc ++ new) ∧
         Forall (λ sp : span, sp.1.1 = line ∧ i ≤ sp.1.2 ∧
                              line_run cell n sp.1.2 sp.2) new ∧
         StronglySorted span_before new.
Proof.
  revert i acc. induction fuel as [|fuel IH]; intros i acc Hfuel Hpos Hi Hleft; [lia|].
  cbn [scan_line]. destruct (bool_decide_reflect (i < n)) as [Hlt|Hge].
  - destruct (cell_total i Hlt) as [[] Hc]; rewrite Hc, bind_Ok_l.
    + destruct (skip_run_spec (S n) i) as (j & -> & Hij & Hjn & Htrue & Hfalse); [lia..|].
      rewrite bind_Ok_l.
      assert (i < j) as Hlt'.
      { destruct (decide (i = j)) as [<-|]; [|lia]. specialize (Hfalse Hlt). congruence. }
      destruct (IH (j + 1) (acc ++ [(line, i, j)]))
        as (new & -> & Hnew & Hsorted); [lia..| |].
      { intros _ Hj. replace (j + 1 - 1) with j by lia. apply Hfalse. lia. }
      exists ((line, i, j) :: new). split; [by rewrite <- app_assoc|]. split.
      * constructor.
        -- cbn. unfold line_run. split_and!; try done; try lia.
           intros Hi0. apply Hleft; lia.
        -- eapply Forall_impl; [exact Hnew|]. intros [[l s] e]; cbn. intuition lia.
      * constructor; [done|]. eapply Forall_impl; [exact Hnew|].
        intros [[l s] e]; cbn. intros (-> & Hs & _). right. lia.
    + destruct (IH (i + 1) acc) as (new & -> & Hnew & Hsorted); [lia..| |].
      { intros _ _. by replace (i + 1 - 1) with i by lia. }
      exists new. split; [done|]. split; [|done].
      eapply Forall_impl; [exact Hnew|]. intros [[l s] e]; cbn. intuition lia.
  - exists []. rewrite app_nil_r. repeat constructor.
Qed.

End ScanLine.

(** The loop over the scan lines [first, first + count). *)
Lemma scan_lines_spec (mask : ndarray bool) (horizontal : bool) (count first : nat)
    (acc : list span) :
  well_formed mask → first + count ≤ line_count mask horizontal →
  ∃ new,
    for_each (seq first count)
      (λ line, scan_line (S (line_length mask horizontal))
                 (line_cell mask horizontal line) (line_length mask horizontal) line 0)
      acc = Ok (acc ++ new) ∧
    Forall (λ sp : span, first ≤ sp.1.1 ∧ maximal_run mask horizontal sp) new ∧
    StronglySorted span_before new.
Proof.
  intros Hwf. revert first acc. induction count as [|count IH]; intros first acc Hcount.
  { exists []. rewrite app_nil_r. repeat constructor. }
  cbn [seq]. rewrite for_each_cons.
  destruct (scan_line_spec (line_cell mask horizontal first) (line_length mask horizontal)
              first) with (fuel := S (line_length mask horizontal)) (i := 0) (acc := acc)
    as (new1 & -> & Hnew1 & Hsorted1); [|lia..|].
  { intros i Hi. unfold line_cell, line_length, line_count in *.
    destruct horizontal; apply getitem_in_shape; (done || lia). }
  rewrite bind_Ok_l.
  destruct (IH (S first) (acc ++ new1)) as (new2 & -> & Hnew2 & Hsorted2); [lia|].
  exists (new1 ++ new2). split; [by rewrite app_assoc|]. split.
  - apply Forall_app. split.
    + eapply Forall_impl; [exact Hnew1|]. intros [[l s] e]; cbn.
      intros (-> & _ & Hrun). split; [done|]. split; [lia|done].
    + eapply Forall_impl; [exact Hnew2|]. intros [[l s] e]; cbn. intuition lia.
  - apply StronglySorted_app_2; [|done..].
    intros [[l1 s1] e1] [[l2 s2] e2] H1 H2.
    rewrite Forall_forall in Hnew1, Hnew2.
    apply Hnew1 in H1. apply Hnew2 in H2. cbn in H1, H2 |- *.
    destruct H1 as (-> & _), H2 as (Hl2 & _). left. lia.
Qed.

Lemma identify_spans_unfold (mask : ndarray bool) (horizontal : bool) :
  identify_spans mask horizontal
  = for_each (seq 0 (line_count mask horizontal))
      (λ line, scan_line (S (line_length mask horizontal))
                 (line_cell mask horizontal line) (line_length mask horizontal) line 0)
      [].
Proof.
  unfold identify_spans, range, line_count, line_length, line_cell.
  rewrite !Nat.sub_0_r. by destruct horizontal.
Qed.

(** The spans lie inside the grid. *)
Lemma identify_spans_in_shape (mask : ndarray bool) (horizontal : bool) :
  well_formed mask →
  ∃ spans,
    identify_spans mask horizontal = Ok spans ∧
    Forall (span_in_shape mask horizontal) spans.
Proof.
  intros Hwf. rewrite identify_spans_unfold.
  destruct (scan_lines_spec mask horizontal (line_count mask horizontal) 0 [] Hwf)
    as (spans & -> & Hspans & _); [lia|].
  exists spans. split; [done|].
  eapply Forall_impl; [exact Hspans|]. intros [[line start] stop] [_ Hrun].
  unfold maximal_run, line_run in Hrun. unfold span_in_shape. tauto.
Qed.

(** C6: on every (well-formed) binary grid and in both orientations,
    [identify_spans] returns a list of spans, each of which has
    [end > start], covers only true cells of its scan line and has a false
    cell or the border of the grid just before its start and at its end;
    the list is in ascending order of scan line and, within a line, of start
    offset, and two spans of one line are separated by at least one cell. *)
Theorem identify_spans_maximal (mask : ndarray bool) (horizontal : bool) :
  well_formed mask →
  ∃ spans,
    identify_spans mask horizontal = Ok spans ∧
    Forall (maximal_run mask horizontal) spans ∧
    StronglySorted span_before spans.
Proof.
  intros Hwf. rewrite identify_spans_unfold.
  destruct (scan_lines_spec mask horizontal (line_count mask horizontal) 0 [] Hwf)
    as (spans & -> & Hspans & Hsorted); [lia|].
  exists spans. split; [done|]. split; [|done].
  eapply Forall_impl; [exact Hspans|]. by intros sp [_ ?].
Qed.

(* ================================================================= *)
(** ** Reads and writes of arrays *)

Lemma flat_index_inj (w y x y' x' : nat) :
  x < w → x' < w → y * w + x = y' * w + x' → y = y' ∧ x = x'.
Proof. intros Hx Hx' Heq. destruct (lt_eq_lt_dec y y') as [[?|?]|?]; nia. Qed.

Lemma getitem_frame {A} (a b : ndarray A) (y x : nat) :
  height a = height b → width a = width b →
  (y < height b → x < width b →
   cells a !! (y * width b + x) = cells b !! (y * width b + x)) →
  getitem a y x = getitem b y x.
Proof.
  intros Hh Hw Hcell. unfold getitem, in_shape. rewrite Hh, Hw.
  destruct (bool_decide_reflect (y < height b)) as [Hy|]; [|done].
  destruct (bool_decide_reflect (x < width b)) as [Hx|]; [|done]. cbn.
  unfold index. by rewrite Hcell.
Qed.

Lemma comprehension_total {A B} (f : A → result B) (xs : list A) :
  (∀ x, x ∈ xs → ∃ v, f x = Ok v) →
  ∃ vs, comprehension f xs = Ok vs ∧ length vs = length xs.
Proof.
  induction xs as [|x xs IH]; intros Hf; cbn; [by exists []|].
  destruct (Hf x) as [v ->]; [left|]. rewrite bind_Ok_l.
  destruct IH as (vs & -> & Hlen). { intros x' Hx'. apply Hf. by right. }
  exists (v :: vs). cbn. by rewrite Hlen.
Qed.

Lemma setslice_exact {A} (a : ndarray A) (y start stop : nat) (vs : list A) :
  y < height a → start < stop → stop ≤ width a → length vs = stop - start →
  setslice a y start stop vs
  = Ok (NdArray (height a) (width a) (list_inserts (y * width a + start) vs (cells a))).
Proof.
  intros Hy Hlt Hle Hlen. unfold setslice. rewrite bool_decide_eq_true_2 by done.
  rewrite !Nat.min_l by lia.
  destruct vs as [|v [|v' vs]]; cbn in Hlen |- *.
  - lia.
  - by rewrite <- Hlen.
  - by rewrite bool_decide_eq_true_2.
Qed.

Lemma lookup_enumerate_range (start stop j y : nat) :
  (j, y) ∈ enumerate (range start stop) → j < stop - start ∧ y = start + j.
Proof.
  unfold enumerate, range. rewrite length_seq.
  intros (i & j' & y' & [= -> ->] & Hj & Hy)%elem_of_lookup_zip_with.
  apply lookup_seq in Hj as [-> ?]. apply lookup_seq in Hy as [-> ?]. lia.
Qed.

(* ================================================================= *)
(** ** One span of [pixel_sort] *)

Section SpanStep.
Context `{Externals} (hp : gmap loc image) (g : rng) (out : loc).
Context (metric : string) (reverse : bool).

Lemma deref_out (b : image) : deref (State (<[out := b]> hp) g) out = Ok b.
Proof. unfold deref. cbn. by rewrite lookup_insert_eq. Qed.

Lemma store_out (b b' : image) :
  store (State (<[out := b]> hp) g) out b' = State (<[out := b']> hp) g.
Proof. unfold store. cbn. by rewrite insert_insert_eq. Qed.

(** A horizontal span is read, sorted and written back in its row; only
    its own cells change. *)
Lemma sort_row_step (b : image) (sp : span) :
  well_formed b → span_in_shape b true sp →
  ∃ b', sort_row out metric reverse sp (State (<[out := b]> hp) g)
        = Ok (State (<[out := b']> hp) g) ∧
        height b' = height b ∧ width b' = width b ∧ well_formed b' ∧
        ∀ y x, ¬ covers true sp y x → getitem b' y x = getitem b y x.
Proof.
  destruct sp as [[y start] stop]. cbn. intros Hwf (Hy & Hlt & Hle).
  destruct (comprehension_total (λ x, getitem b y x) (range start stop))
    as (px & Hread & Hpx).
  { intros x Hx%elem_of_range. apply getitem_in_shape; (done || lia). }
  destruct (sort_span_total px metric reverse) as (sorted_span & Hsort & Hperm).
  assert (length sorted_span = stop - start) as Hlen.
  { rewrite Hperm, Hpx. unfold range. by rewrite length_seq. }
  eexists. split.
  { unfold sort_row. cbv beta iota zeta.
    rewrite deref_out, bind_Ok_l, Hread, bind_Ok_l, Hsort, bind_Ok_l.
    by rewrite bind_Ok_l, setslice_exact, bind_Ok_l, store_out. }
  cbn. split_and!; try done.
  - unfold well_formed. cbn. by rewrite length_inserts.
  - intros y' x' Hout. apply getitem_frame; [done..|]. cbn. intros Hy' Hx'.
    destruct (decide (y' = y)) as [->|Hne].
    + destruct (decide (x' < start)).
      * apply list_lookup_inserts_lt. lia.
      * apply list_lookup_inserts_ge. lia.
    + destruct (decide (y' < y)).
      * apply list_lookup_inserts_lt. nia.
      * apply list_lookup_inserts_ge. nia.
Qed.

(** A vertical span is read, sorted and written back cell by cell in its
    column; only its own cells change. *)
Lemma sort_column_step (b : image) (sp : span) :
  well_formed b → span_in_shape b false sp →
  ∃ b', sort_column out metric reverse sp (State (<[out := b]> hp) g)
        = Ok (State (<[out := b']> hp) g) ∧
        height b' = height b ∧ width b' = width b ∧ well_formed b' ∧
        ∀ y x, ¬ covers false sp y x → getitem b' y x = getitem b y x.
Proof.
  destruct sp as [[x start] stop]. cbn. intros Hwf (Hx & Hlt & Hle).
  destruct (comprehension_total (λ y, getitem b y x) (range start stop))
    as (px & Hread & Hpx).
  { intros y Hy%elem_of_range. apply getitem_in_shape; (done || lia). }
  destruct (sort_span_total px metric reverse) as (sorted_span & Hsort & Hperm).
  assert (length sorted_span = stop - start) as Hlen.
  { rewrite Hperm, Hpx. unfold range. by rewrite length_seq. }
  set (kept := λ σ : state, ∃ b',
         σ = State (<[out := b']> hp) g ∧
         height b' = height b ∧ width b' = width b ∧ well_formed b' ∧
         ∀ y' x', ¬ (x' = x ∧ start ≤ y' < stop) → getitem b' y' x' = getitem b y' x').
  destruct (for_each_invariant kept (enumerate (range start stop))
              (λ '(j, y) σ,
                 o ← deref σ out; v ← index sorted_span j;
                 o ← setitem o y x v; Ok (store σ out o))
              (State (<[out := b]> hp) g)) as (σ' & Hrun & b' & -> & Hkept).
  - intros [j y] σ (Hj & ->)%lookup_enumerate_range (b1 & -> & Hh & Hw & Hwf1 & Hframe).
    destruct (index_lt sorted_span j) as (v & Hv & _); [lia|].
    eexists. split.
    { rewrite deref_out, bind_Ok_l, Hv, bind_Ok_l.
      by rewrite setitem_in_shape, bind_Ok_l, store_out by lia. }
    eexists. split; [done|]. cbn. split_and!; try done.
    + unfold well_formed. cbn. by rewrite length_insert.
    + intros y' x' Hout. rewrite <- Hframe by done.
      apply getitem_frame; [done..|]. cbn. intros Hy' Hx'.
      apply list_lookup_insert_ne. intros Heq.
      apply flat_index_inj in Heq as [? ?]; [|lia..]. lia.
  - by exists b.
  - exists b'. split; [|done]. unfold sort_column. cbv beta iota zeta.
    by rewrite deref_out, bind_Ok_l, Hread, bind_Ok_l, Hsort, bind_Ok_l.
Qed.

Lemma sort_span_step (horizontal : bool) (b : image) (sp : span) :
  well_formed b → span_in_shape b horizontal sp →
  ∃ b', (if horizontal then sort_row out metric reverse sp
         else sort_column out metric reverse sp) (State (<[out := b]> hp) g)
        = Ok (State (<[out := b']> hp) g) ∧
        height b' = height b ∧ width b' = width b ∧ well_formed b' ∧
        ∀ y x, ¬ covers horizontal sp y x → getitem b' y x = getitem b y x.
Proof.
  destruct horizontal; [apply sort_row_step|apply sort_column_step].
Qed.

(** The loop over the spans keeps the shape of [out] and every cell that no
    span covers. *)
Lemma sort_spans_loop (horizontal : bool) (spans : list span) (a : image) :
  well_formed a → Forall (span_in_shape a horizontal) spans →
  ∃ b, for_each spans (λ sp σ,
           if horizontal then sort_row out metric reverse sp σ
           else sort_column out metric reverse sp σ) (State (<[out := a]> hp) g)
       = Ok (State (<[out := b]> hp) g) ∧
       height b = height a ∧ width b = width a ∧ well_formed b ∧
       ∀ y x, (∀ sp, sp ∈ spans → ¬ covers horizontal sp y x) →
              getitem b y x = getitem a y x.
Proof.
  intros Hwf Hspans.
  set (kept := λ σ : state, ∃ b,
         σ = State (<[out := b]> hp) g ∧
         height b = height a ∧ width b = width a ∧ well_formed b ∧
         ∀ y x, (∀ sp, sp ∈ spans → ¬ covers horizontal sp y x) →
                getitem b y x = getitem a y x).
  destruct (for_each_invariant kept spans
              (λ sp σ, if horizontal then sort_row out metric reverse sp σ
                       else sort_column out metric reverse sp σ)
              (State (<[out := a]> hp) g)) as (σ' & Hrun & b & -> & Hkept).
  - intros sp σ Hsp (b & -> & Hh & Hw & Hwfb & Hframe).
    rewrite Forall_forall in Hspans.
    destruct (sort_span_step horizontal b sp) as (b' & Hstep & Hh' & Hw' & Hwf' & Hframe').
    { done. }
    { specialize (Hspans sp Hsp). destruct sp as [[line start] stop].
      unfold span_in_shape, line_count, line_length in *.
      by rewrite ?Hh, ?Hw. }
    exists (State (<[out := b']> hp) g). split.
    { by destruct horizontal. }
    exists b'. split; [done|]. split_and!; try congruence.
    intros y x Hout. rewrite Hframe', Hframe; auto.
  - by exists a.
  - by exists b.
Qed.

End SpanStep.

(* ================================================================= *)
(** ** [pixel_sort] *)

Lemma deref_Some `{Externals} (σ : state) (l : loc) (a : image) :
  heap σ !! l = Some a → deref σ l = Ok a.
Proof. unfold deref. by intros ->. Qed.

(** For a valid channel [create_mask] raises nothing, whatever the jitter. *)
Lemma create_mask_total `{Externals} (img : image) (low high : float)
    (channel : string) (invert : bool) (random_offset : float) (g : rng) :
  well_formed img → valid_channel channel = true →
  ∃ mask g',
    create_mask img low high channel invert random_offset g = Ok (mask, g') ∧
    height mask = height img ∧ width mask = width img ∧ well_formed mask.
Proof.
  intros Hwf Hch. rewrite create_mask_unfold.
  set (shaped := λ st : ndarray bool * rng,
         height st.1 = height img ∧ width st.1 = width img ∧ well_formed st.1).
  destruct (for_each_invariant shaped (seq 0 (height img))
              (λ y, for_each (seq 0 (width img))
                      (mask_cell img low high channel random_offset y))
              (NdArray (height img) (width img)
                 (replicate (height img * width img) false), g))
    as ([mask g'] & -> & Hh & Hw & Hmask).
  - intros y st Hy%elem_of_seq Hst. apply for_each_invariant; [|done].
    intros x [m g1] Hx%elem_of_seq (Hh & Hw & Hm). cbn in Hh, Hw, Hm.
    unfold mask_cell.
    destruct (getitem_in_shape img y x) as [p ->]; [done|lia..|]. rewrite bind_Ok_l.
    rewrite mask_value_valid, bind_Ok_l by done.
    destruct (if (0 <? random_offset)%float then _ else _) as [val g2].
    destruct (_ && _); [|by exists (m, g2)].
    rewrite setitem_in_shape, bind_Ok_l by lia.
    eexists. split; [done|]. unfold shaped, well_formed in *. cbn.
    by rewrite length_insert.
  - unfold shaped, well_formed. cbn. by rewrite length_replicate.
  - cbn in Hh, Hw, Hmask. rewrite bind_Ok_l. cbn [fst snd].
    exists (if invert then invert_mask mask else mask), g'. split; [done|].
    destruct invert; [|done]. unfold invert_mask, well_formed in *. cbn.
    by rewrite length_fmap.
Qed.

Lemma span_in_shape_same {A B} (a : ndarray A) (b : ndarray B)
    (horizontal : bool) (sp : span) :
  height a = height b → width a = width b →
  span_in_shape a horizontal sp → span_in_shape b horizontal sp.
Proof.
  intros Hh Hw. destruct sp as [[line start] stop].
  unfold span_in_shape, line_count, line_length. by rewrite Hh, Hw.
Qed.

(** Lines 113-128 on a well-formed image and a valid channel: a new array
    [out] is allocated, the mask and the spans are computed from [img], and
    the loop changes [out] inside the spans only. *)
Lemma sort_pass_spec `{Externals} (σ : state) (img : loc) (a : image)
    (low high : float) (channel : string) (invert : bool) (random_offset : float)
    (horizontal : bool) (metric : string) (reverse : bool) :
  heap σ !! img = Some a → well_formed a → valid_channel channel = true →
  ∃ out mask g' spans b,
    (out ∉ dom (heap σ)) ∧
    create_mask a low high channel invert random_offset (generator σ) = Ok (mask, g') ∧
    identify_spans mask horizontal = Ok spans ∧
    sort_pass σ img low high channel invert random_offset horizontal metric reverse
    = Ok (out, State (<[out := b]> (heap σ)) g') ∧
    height b = height a ∧ width b = width a ∧ well_formed b ∧
    ∀ y x, (∀ sp, sp ∈ spans → ¬ covers horizontal sp y x) →
           getitem b y x = getitem a y x.
Proof.
  intros Himg Hwf Hch.
  set (out := (fresh (dom (heap σ)) : loc)).
  assert (out ∉ dom (heap σ)) as Hfresh by apply is_fresh.
  assert (out ≠ img) as Hne.
  { intros ->. apply Hfresh, elem_of_dom. by exists a. }
  destruct (create_mask_total a low high channel invert random_offset (generator σ))
    as (mask & g' & Hmask & Hh & Hw & Hmwf); [done..|].
  destruct (identify_spans_in_shape mask horizontal Hmwf) as (spans & Hspans & Hruns).
  destruct (sort_spans_loop (heap σ) g' out metric reverse horizontal spans a)
    as (b & Hloop & Hbh & Hbw & Hbwf & Hframe); [done| |].
  { eapply Forall_impl; [exact Hruns|]. intros sp. by apply span_in_shape_same. }
  exists out, mask, g', spans, b. split_and!; try done.
  unfold sort_pass. rewrite (deref_Some σ img a), bind_Ok_l by done.
  unfold alloc. fold out. cbv beta iota zeta.
  rewrite (deref_Some _ img a), bind_Ok_l
    by (cbn [heap]; by rewrite lookup_insert_ne).
  cbn [heap generator]. rewrite Hmask, bind_Ok_l. cbv beta iota zeta.
  rewrite Hspans, bind_Ok_l. by rewrite Hloop, bind_Ok_l.
Qed.

Lemma float_eq_zero_not_one (gamma : float) :
  float_eq gamma 0 → (gamma =? 1)%float = false.
Proof.
  unfold float_eq. rewrite !FloatAxioms.eqb_spec.
  change (Prim2SF 0) with (S754_zero false).
  change (Prim2SF 1) with (S754_finite false 4503599627370496 (-52)).
  by destruct (Prim2SF gamma) as [[]|[]| |[] ? ?].
Qed.

Lemma float_lt_not_eq_l (a b : float) : float_lt a b → (a =? b)%float = false.
Proof.
  unfold float_lt. rewrite FloatAxioms.eqb_spec, FloatAxioms.ltb_spec.
  unfold SFeqb, SFltb. by destruct (SFcompare _ _) as [[]|].
Qed.

Lemma getitem_gamma_correct `{Externals} (e : float) (b : image) (y x : nat) (p : pixel) :
  getitem b y x = Ok p → getitem (gamma_correct e b) y x = Ok (gamma_pixel e p).
Proof.
  intros (Hy & Hx & Hp)%getitem_Ok. apply getitem_Ok. cbn.
  by rewrite list_lookup_fmap, Hp.
Qed.

(* ================================================================= *)
(** ** The gamma step against the tone curve *)

Lemma is_nan_spec (x : float) : is_nan x = true → Prim2SF x = S754_nan.
Proof.
  unfold is_nan. rewrite negb_true_iff, FloatAxioms.eqb_spec. unfold SFeqb.
  destruct (Prim2SF x) as [[]|[]| |[] m e]; cbn; try done;
    rewrite Z.compare_refl; change (Pos.compare_cont Eq m m) with (Pos.compare m m);
    by rewrite Pos.compare_refl.
Qed.

Lemma nan_not_lt (x y : float) :
  is_nan x = true → (x <? y)%float = false ∧ (y <? x)%float = false.
Proof.
  intros Hx%is_nan_spec. rewrite !FloatAxioms.ltb_spec, Hx. unfold SFltb.
  split; [done|]. by destruct (Prim2SF y) as [[]|[]| |[] ? ?].
Qed.

(** numpy's clip between 0 and 255 is the clamp of the specification. *)
Lemma np_clip_clamp (x : float) : np_clip x 0 255 = clamp x 0 255.
Proof.
  unfold np_clip, np_maximum, np_minimum, clamp.
  destruct (is_nan x) eqn:Hnan.
  - destruct (nan_not_lt x 0 Hnan) as [-> _]. destruct (nan_not_lt x 255 Hnan) as [_ ->].
    by rewrite Hnan.
  - change (is_nan 0) with false. change (is_nan 255) with false. cbv iota.
    destruct (x <? 0)%float.
    + by change (255 <? 0)%float with false.
    + by rewrite Hnan.
Qed.

Lemma digits2_pos_bound (m : positive) : (Z.pos m < 2 ^ Z.pos (digits2_pos m))%Z.
Proof.
  induction m as [m IH|m IH|]; cbn [digits2_pos]; [| |done];
    rewrite Pos2Z.inj_succ, Z.pow_succ_r by lia; lia.
Qed.

(** The mantissa of a float has at most 53 bits. *)
Lemma mantissa_bound (x : float) (s : bool) (m : positive) (e : Z) :
  Prim2SF x = S754_finite s m e → (Z.pos m < 2 ^ 53)%Z.
Proof.
  intros Hx. pose proof (Prim2SF_valid x) as Hvalid. rewrite Hx in Hvalid.
  unfold valid_binary, SpecFloat.valid_binary, bounded, canonical_mantissa, fexp in Hvalid.
  apply andb_true_iff in Hvalid as [Hcanon%Z.eqb_eq _].
  change prec with 53%Z in Hcanon.
  pose proof (digits2_pos_bound m) as Hm.
  assert (Z.pos (digits2_pos m) ≤ 53)%Z as Hd by lia.
  eapply Z.lt_le_trans; [exact Hm|]. apply Z.pow_le_mono_r; lia.
Qed.

(** On a float between 0 and 255 the cast to uint8 drops the fraction and
    nothing else. *)
Lemma astype_uint8_integer_part (x : float) :
  is_nan x = false → (x <? 0)%float = false → (255 <? x)%float = false →
  integer_part x = Some (astype_uint8 x).
Proof.
  intros Hnan Hlo Hhi. unfold integer_part, astype_uint8.
  rewrite FloatAxioms.ltb_spec in Hlo, Hhi.
  change (Prim2SF 0) with (S754_zero false) in Hlo.
  change (Prim2SF 255) with (S754_finite false 8972014882652160 (-45)) in Hhi.
  destruct (Prim2SF x) as [z|i| |s m e] eqn:Hx.
  - done.
  - by destruct i.
  - unfold is_nan in Hnan. rewrite negb_false_iff, FloatAxioms.eqb_spec, Hx in Hnan. done.
  - destruct s; [done|]. pose proof (mantissa_bound x false m e Hx) as Hm.
    unfold SFltb, SFcompare in Hhi.
    change (Pos.compare_cont Eq 8972014882652160 m)
      with (Z.compare 8972014882652160 (Z.pos m)) in Hhi.
    assert (e ≤ -45 ∧ (e = -45 → Z.pos m ≤ 8972014882652160))%Z as [Hle Heq].
    { destruct (Z.compare_spec (-45) e) as [<-|?|?]; [|done|lia].
      destruct (Z.compare_spec 8972014882652160 (Z.pos m)); [lia|done|lia]. }
    destruct (Z.leb_spec 0 e) as [?|_]; [lia|]. f_equal.
    rewrite Z.shiftl_div_pow2 by lia.
    assert (0 < 2 ^ (- e))%Z as Hpow by (apply Z.pow_pos_nonneg; lia).
    symmetry. apply Z.mod_small. split; [apply Z.div_pos; lia|].
    apply Z.div_lt_upper_bound; [done|].
    destruct (decide (e = -45)%Z) as [->|Hne].
    + specialize (Heq eq_refl). change (2 ^ (- (-45)))%Z with 35184372088832%Z. lia.
    + assert (2 ^ 46 ≤ 2 ^ (- e))%Z by (apply Z.pow_le_mono_r; lia).
      change (2 ^ 53)%Z with (2 ^ 46 * 128)%Z in Hm. nia.
Qed.

(** The conversion [gamma_channel] makes of one channel is the tone curve
    with the fraction dropped, wherever the curve is a number. *)
Lemma gamma_channel_tone_mapped `{Externals} (gamma : float) (v : Z) :
  tone_mapped gamma v (gamma_channel (1 / gamma) v).
Proof.
  unfold tone_mapped, tone_curve, tone_value, gamma_channel. rewrite np_clip_clamp.
  set (t := (power (float_of_uint8 v / 255) (1 / gamma) * 255)%float).
  unfold clamp. destruct (t <? 0)%float eqn:Hlo; [done|].
  destruct (255 <? t)%float eqn:Hhi; [done|].
  intros Hnan. by apply astype_uint8_integer_part.
Qed.

Section Pipeline.
Context `{Externals} (σ : state) (img : loc) (a : image).
Context (low_thresh high_thresh : float) (channel : string) (invert : bool).
Context (random_offset : float) (horizontal : bool) (metric : string) (reverse : bool).
Hypothesis img_alive : heap σ !! img = Some a.
Hypothesis img_wf : well_formed a.
Hypothesis channel_ok : valid_channel channel = true.

(** With [gamma == 1.0] the result of [pixel_sort] is that of lines
    113-128. *)
Lemma pixel_sort_gamma_one (gamma : float) (r : loc * state) :
  float_eq gamma 1 →
  sort_pass σ img low_thresh high_thresh channel invert random_offset
    horizontal metric reverse = Ok r →
  pixel_sort σ img low_thresh high_thresh channel invert random_offset
    horizontal metric reverse gamma = Ok r.
Proof.
  intros Hg Hpass. unfold pixel_sort. rewrite Hpass, bind_Ok_l.
  destruct r as [out σ1]. by rewrite Hg.
Qed.

(** With [gamma != 1.0] and [gamma != 0] a corrected copy is allocated. *)
Lemma pixel_sort_gamma_other (gamma : float) (out : loc) (σ1 : state) (b : image) :
  (gamma =? 1)%float = false → (gamma =? 0)%float = false →
  sort_pass σ img low_thresh high_thresh channel invert random_offset
    horizontal metric reverse = Ok (out, σ1) →
  heap σ1 !! out = Some b →
  pixel_sort σ img low_thresh high_thresh channel invert random_offset
    horizontal metric reverse gamma
  = Ok (alloc σ1 (gamma_correct (1 / gamma) b)).
Proof.
  intros Hg1 Hg0 Hpass Hb. unfold pixel_sort. rewrite Hpass, bind_Ok_l.
  cbv beta iota. rewrite Hg1. cbn [negb].
  rewrite (deref_Some σ1 out b), bind_Ok_l by done.
  unfold reciprocal. by rewrite Hg0, bind_Ok_l.
Qed.

(** With [gamma == 0] the division [1/gamma] raises. *)
Lemma pixel_sort_gamma_zero (gamma : float) (out : loc) (σ1 : state) (b : image) :
  float_eq gamma 0 →
  sort_pass σ img low_thresh high_thresh channel invert random_offset
    horizontal metric reverse = Ok (out, σ1) →
  heap σ1 !! out = Some b →
  pixel_sort σ img low_thresh high_thresh channel invert random_offset
    horizontal metric reverse gamma
  = Raise ZeroDivisionError.
Proof.
  intros Hg0 Hpass Hb. unfold pixel_sort. rewrite Hpass, bind_Ok_l.
  cbv beta iota. rewrite float_eq_zero_not_one by done. cbn [negb].
  rewrite (deref_Some σ1 out b), bind_Ok_l by done.
  unfold reciprocal. by rewrite Hg0.
Qed.





End Pipeline.

(* ================================================================= *)
(** ** The statements on examples *)

(** The scenarios of the specification, run on the embedding. *)
#[warnings="-inexact-float"]
Example scenario_mask :
  (st ← @create_mask example_externals example_row 0.3 1 "luminance" false 0 0;
   Ok (cells st.1))
  = Ok [false; true; true; false; true].
Proof. reflexivity. Qed.

Example scenario_spans :
  identify_spans (NdArray 1 5 [false; true; true; false; true]) true
  = Ok [(0, 1, 3); (0, 4, 5)].
Proof. reflexivity. Qed.

Example scenario_sort :
  @sort_span example_externals [grey 230; grey 51; grey 128] "luminance" false
  = Ok [grey 51; grey 128; grey 230] ∧
  @sort_span example_externals [grey 230; grey 51; grey 128] "luminance" true
  = Ok [grey 230; grey 128; grey 51].
Proof. split; reflexivity. Qed.

Example scenario_columns :
  identify_spans example_mask false
  = Ok [(0, 1, 2); (1, 0, 2); (2, 0, 1); (4, 0, 1)].
Proof. reflexivity. Qed.

(** C1 fails as stated: under the unrecognised metric ["brightness"] and
    [reverse=True], two pixels come back swapped. *)
Lemma sort_span_fallback_swaps :
  recognised "brightness" = false ∧
  @sort_span example_externals [grey 10; grey 20] "brightness" true
  = Ok [grey 20; grey 10] ∧
  @sort_span example_externals [grey 10; grey 20] "brightness" true
  ≠ Ok [grey 10; grey 20].
Proof. split_and!; [reflexivity|reflexivity|discriminate]. Qed.

Lemma sort_span_fallback_example :
  recognised "brightness" = false ∧
  (@sort_span example_externals [grey 10; grey 20; grey 5] "brightness" false
   = Ok [grey 10; grey 20; grey 5] ∧
   @sort_span example_externals [grey 10; grey 20; grey 5] "brightness" true
   = Ok (reverse [grey 10; grey 20; grey 5])).
Proof.
  split; [reflexivity|].
  apply (@sort_span_fallback example_externals). reflexivity.
Defined.

Lemma sort_span_stable_example :
  recognised "r" = true ∧
  ∃ sorted_pixels,
    @sort_span example_externals [(7, 1, 0); (3, 2, 0); (7, 3, 0)]%Z "r" true
    = Ok sorted_pixels ∧
    (∀ k : float,
       filter (λ p, float_eq (@metric_key example_externals "r" p) k) sorted_pixels
       = filter (λ p, float_eq (@metric_key example_externals "r" p) k)
           [(7, 1, 0); (3, 2, 0); (7, 3, 0)]%Z) ∧
    ((∀ p q, p ∈ [(7, 1, 0); (3, 2, 0); (7, 3, 0)]%Z →
             q ∈ [(7, 1, 0); (3, 2, 0); (7, 3, 0)]%Z →
             float_eq (@metric_key example_externals "r" p)
                      (@metric_key example_externals "r" q)) →
     sorted_pixels = [(7, 1, 0); (3, 2, 0); (7, 3, 0)]%Z) ∧
    (Forall (λ p, is_nan (@metric_key example_externals "r" p) = false)
       [(7, 1, 0); (3, 2, 0); (7, 3, 0)]%Z →
     StronglySorted (@key_order example_externals "r" true) sorted_pixels).
Proof.
  split; [reflexivity|].
  apply (@sort_span_stable example_externals). reflexivity.
Defined.


Lemma create_mask_thresholds_example :
  well_formed example_row ∧ valid_channel "luminance" = true ∧
  ∃ mask,
    @create_mask example_externals example_row 0.25 1 "luminance" false 0 0
    = Ok (mask, 0) ∧
    height mask = height example_row ∧ width mask = width example_row ∧
    ∀ y x p, getitem example_row y x = Ok p →
      let selected :=
        in_thresholds 0.25 1 (@channel_metric example_externals "luminance" p) in
      getitem mask y x = Ok (if false then negb selected else selected).
Proof.
  split; [reflexivity|]. split; [reflexivity|].
  apply (@create_mask_thresholds example_externals); reflexivity.
Defined.

Lemma identify_spans_maximal_example :
  well_formed example_mask ∧
  ∃ spans,
    identify_spans example_mask true = Ok spans ∧
    Forall (maximal_run example_mask true) spans ∧
    StronglySorted span_before spans.
Proof. split; [reflexivity|]. apply identify_spans_maximal. reflexivity. Defined.







(* ================================================================= *)
(** * Further properties *)

(** ** [identify_spans]: the spans and the true cells *)

Section ScanLineCovers.
Context (cell : nat → result bool) (n line : nat).
Hypothesis cell_total : ∀ i, i < n → ∃ b, cell i = Ok b.

(** No true cell from offset [i] on is left outside the spans the outer
    loop appends. *)
Lemma scan_line_covers (fuel i : nat) (acc : list span) :
  n < i + fuel → 0 < fuel → i ≤ S n →
  ∃ new, scan_line fuel cell n line i acc = Ok (acc ++ new) ∧
         ∀ t, i ≤ t < n → cell t = Ok true →
              ∃ start stop, (line, start, stop) ∈ new ∧ start ≤ t < stop.
Proof.
  revert i acc. induction fuel as [|fuel IH]; intros i acc Hfuel Hpos Hi; [lia|].
  cbn [scan_line]. destruct (bool_decide_reflect (i < n)) as [Hlt|Hge].
  - destruct (cell_total i Hlt) as [[] Hc]; rewrite Hc, bind_Ok_l.
    + destruct (skip_run_spec cell n cell_total (S n) i)
        as (j & -> & Hij & Hjn & Htrue & Hfalse); [lia..|].
      rewrite bind_Ok_l.
      destruct (IH (j + 1) (acc ++ [(line, i, j)])) as (new & -> & Hnew); [lia..|].
      exists ((line, i, j) :: new). split; [by rewrite <- app_assoc|].
      intros t Ht Hcell. destruct (decide (t < j)) as [Htj|Htj].
      { exists i, j. split; [left|lia]. }
      destruct (decide (t = j)) as [->|Hne].
      { rewrite Hfalse in Hcell by lia. done. }
      destruct (Hnew t) as (s & e & Hin & Hse); [lia|done|].
      exists s, e. split; [by right|done].
    + destruct (IH (i + 1) acc) as (new & -> & Hnew); [lia..|].
      exists new. split; [done|]. intros t Ht Hcell.
      destruct (decide (t = i)) as [->|Hne]; [congruence|].
      apply Hnew; [lia|done].
  - exists []. rewrite app_nil_r. split; [done|]. intros t Ht. lia.
Qed.

End ScanLineCovers.

(** A line without a true cell adds no span. *)
Lemma scan_line_all_false (cell : nat → result bool) (n line fuel i : nat)
    (acc : list span) :
  (∀ t, t < n → cell t = Ok false) →
  n < i + fuel → 0 < fuel →
  scan_line fuel cell n line i acc = Ok acc.
Proof.
  intros Hfalse. revert i. induction fuel as [|fuel IH]; intros i Hfuel Hpos; [lia|].
  cbn [scan_line]. destruct (bool_decide_reflect (i < n)) as [Hlt|Hge]; [|done].
  rewrite Hfalse, bind_Ok_l by done. apply IH; lia.
Qed.

(** On a run of true cells up to the end of the line the inner loop stops
    at the end. *)
Lemma skip_run_all_true (cell : nat → result bool) (n fuel i : nat) :
  (∀ t, t < n → cell t = Ok true) →
  n < i + fuel → i ≤ n →
  skip_run fuel cell n i = Ok n.
Proof.
  intros Htrue. revert i. induction fuel as [|fuel IH]; intros i Hfuel Hi; [lia|].
  cbn [skip_run]. destruct (bool_decide_reflect (i < n)) as [Hlt|Hge].
  - rewrite Htrue, bind_Ok_l by done. apply IH; lia.
  - f_equal. lia.
Qed.

(** A non-empty line of true cells adds the one span that covers it. *)
Lemma scan_line_all_true (cell : nat → result bool) (n line : nat) (acc : list span) :
  (∀ t, t < n → cell t = Ok true) → 0 < n →
  scan_line (S n) cell n line 0 acc = Ok (acc ++ [(line, 0, n)]).
Proof.
  intros Htrue Hn. cbn [scan_line]. rewrite bool_decide_eq_true_2 by done.
  rewrite Htrue, bind_Ok_l by done.
  rewrite skip_run_all_true, bind_Ok_l by (done || lia).
  destruct n as [|m]; [lia|]. cbn [scan_line].
  by rewrite bool_decide_eq_false_2 by lia.
Qed.

Lemma line_cell_total (mask : ndarray bool) (horizontal : bool) (line i : nat) :
  well_formed mask → line < line_count mask horizontal →
  i < line_length mask horizontal →
  ∃ b, line_cell mask horizontal line i = Ok b.
Proof.
  intros Hwf Hline Hi. unfold line_cell, line_length, line_count in *.
  destruct horizontal; by apply getitem_in_shape.
Qed.

Lemma scan_lines_covers (mask : ndarray bool) (horizontal : bool) (count first : nat)
    (acc : list span) :
  well_formed mask → first + count ≤ line_count mask horizontal →
  ∃ new,
    for_each (seq first count)
      (λ line, scan_line (S (line_length mask horizontal))
                 (line_cell mask horizontal line) (line_length mask horizontal) line 0)
      acc = Ok (acc ++ new) ∧
    ∀ line i, first ≤ line < first + count → i < line_length mask horizontal →
      line_cell mask horizontal line i = Ok true →
      ∃ start stop, (line, start, stop) ∈ new ∧ start ≤ i < stop.
Proof.
  intros Hwf. revert first acc. induction count as [|count IH]; intros first acc Hcount.
  { exists []. rewrite app_nil_r. split; [done|]. intros line i Hline. lia. }
  cbn [seq]. rewrite for_each_cons.
  destruct (scan_line_covers (line_cell mask horizontal first)
              (line_length mask horizontal) first)
    with (fuel := S (line_length mask horizontal)) (i := 0) (acc := acc)
    as (new1 & -> & Hnew1); [|lia..|].
  { intros i Hi. apply line_cell_total; (done || lia). }
  rewrite bind_Ok_l.
  destruct (IH (S first) (acc ++ new1)) as (new2 & -> & Hnew2); [lia|].
  exists (new1 ++ new2). split; [by rewrite app_assoc|].
  intros line i Hline Hi Hcell. destruct (decide (line = first)) as [->|Hne].
  - destruct (Hnew1 i) as (s & e & Hin & Hse); [lia|done|].
    exists s, e. split; [|done]. apply elem_of_app. by left.
  - destruct (Hnew2 line i) as (s & e & Hin & Hse); [lia|done..|].
    exists s, e. split; [|done]. apply elem_of_app. by right.
Qed.

(** Spans in scan order share no position. *)
Lemma span_before_disjoint (horizontal : bool) (s1 s2 : span) (y x : nat) :
  span_before s1 s2 → covers horizontal s1 y x → covers horizontal s2 y x → False.
Proof.
  destruct s1 as [[l1 a1] e1], s2 as [[l2 a2] e2]. unfold span_before, covers.
  destruct horizontal; lia.
Qed.

Lemma StronglySorted_compare {A} (R : relation A) (l : list A) (x y : A) :
  StronglySorted R l → x ∈ l → y ∈ l → x = y ∨ R x y ∨ R y x.
Proof.
  induction 1 as [|z l _ IH Hz]; intros Hx Hy; [by apply elem_of_nil in Hx|].
  rewrite Forall_forall in Hz.
  apply elem_of_cons in Hx as [->|Hx], Hy as [->|Hy]; auto.
Qed.

Lemma covers_line_cell (mask : ndarray bool) (horizontal : bool)
    (line start stop y x : nat) :
  covers horizontal (line, start, stop) y x →
  ∃ i, start ≤ i < stop ∧ getitem mask y x = line_cell mask horizontal line i.
Proof.
  unfold covers, line_cell. destruct horizontal; intros [-> Hi]; eauto.
Qed.

(** All that the loops of [identify_spans] establish. *)
Lemma identify_spans_spec (mask : ndarray bool) (horizontal : bool) :
  well_formed mask →
  ∃ spans,
    identify_spans mask horizontal = Ok spans ∧
    Forall (maximal_run mask horizontal) spans ∧
    StronglySorted span_before spans ∧
    ∀ y x, getitem mask y x = Ok true →
           ∃ sp, sp ∈ spans ∧ covers horizontal sp y x.
Proof.
  intros Hwf. rewrite identify_spans_unfold.
  destruct (scan_lines_spec mask horizontal (line_count mask horizontal) 0 [] Hwf)
    as (spans & Hrun & Hruns & Hsorted); [lia|].
  destruct (scan_lines_covers mask horizontal (line_count mask horizontal) 0 [] Hwf)
    as (spans' & Hrun' & Hcovers); [lia|].
  rewrite Hrun in Hrun'. injection Hrun' as <-.
  exists spans. split_and!; try done.
  - eapply Forall_impl; [exact Hruns|]. by intros sp [_ ?].
  - intros y x Hcell.
    assert (y < height mask ∧ x < width mask) as [Hy Hx].
    { apply getitem_Ok in Hcell. tauto. }
    destruct (Hcovers (if horizontal then y else x) (if horizontal then x else y))
      as (s & e & Hin & Hse).
    + unfold line_count. destruct horizontal; lia.
    + unfold line_length. destruct horizontal; lia.
    + unfold line_cell. by destruct horizontal.
    + eexists. split; [exact Hin|]. unfold covers. destruct horizontal; lia.
Qed.

Lemma maximal_run_covers (mask : ndarray bool) (horizontal : bool) (sp : span)
    (y x : nat) :
  maximal_run mask horizontal sp → covers horizontal sp y x →
  getitem mask y x = Ok true.
Proof.
  destruct sp as [[line start] stop]. intros (_ & _ & _ & Htrue & _) Hcov.
  destruct (covers_line_cell mask horizontal line start stop y x Hcov) as (i & Hi & ->).
  by apply Htrue.
Qed.

(** X1: on a well-formed grid, in both orientations, the spans of
    [identify_spans] cover the true cells and nothing else: a cell is true
    exactly when some span covers its position, and then exactly one span
    does. *)
Theorem identify_spans_partition (mask : ndarray bool) (horizontal : bool) :
  well_formed mask →
  ∃ spans,
    identify_spans mask horizontal = Ok spans ∧
    (∀ y x, getitem mask y x = Ok true ↔
            ∃ sp, sp ∈ spans ∧ covers horizontal sp y x) ∧
    (∀ y x sp1 sp2, sp1 ∈ spans → sp2 ∈ spans →
       covers horizontal sp1 y x → covers horizontal sp2 y x → sp1 = sp2).
Proof.
  intros Hwf.
  destruct (identify_spans_spec mask horizontal Hwf)
    as (spans & Hrun & Hruns & Hsorted & Hcovers).
  rewrite Forall_forall in Hruns.
  exists spans. split; [done|]. split.
  - intros y x. split; [apply Hcovers|].
    intros (sp & Hin & Hcov). eapply maximal_run_covers; eauto.
  - intros y x sp1 sp2 H1 H2 Hc1 Hc2.
    destruct (StronglySorted_compare span_before spans sp1 sp2) as [?|[Hb|Hb]];
      [done..| |]; exfalso; eauto using span_before_disjoint.
Qed.

Lemma uniform_line_cell (mask : ndarray bool) (horizontal : bool) (v : bool)
    (line i : nat) :
  (∀ b, b ∈ cells mask → b = v) → well_formed mask →
  line < line_count mask horizontal → i < line_length mask horizontal →
  line_cell mask horizontal line i = Ok v.
Proof.
  intros Hall Hwf Hline Hi.
  destruct (line_cell_total mask horizontal line i) as [b Hb]; [done..|].
  rewrite Hb. f_equal. apply Hall.
  unfold line_cell in Hb. destruct horizontal;
    apply getitem_Ok in Hb as (_ & _ & Hb); by eapply list_elem_of_lookup_2.
Qed.

(** X2: a grid without a true cell has no span, in either orientation. *)
Theorem identify_spans_none (mask : ndarray bool) (horizontal : bool) :
  well_formed mask → (∀ b, b ∈ cells mask → b = false) →
  identify_spans mask horizontal = Ok [].
Proof.
  intros Hwf Hall. rewrite identify_spans_unfold.
  assert (∀ count first acc, first + count ≤ line_count mask horizontal →
            for_each (seq first count)
              (λ line, scan_line (S (line_length mask horizontal))
                         (line_cell mask horizontal line)
                         (line_length mask horizontal) line 0) acc
            = Ok acc) as Hloop.
  { induction count as [|count IH]; intros first acc Hcount; [done|].
    cbn [seq]. rewrite for_each_cons, scan_line_all_false, bind_Ok_l; try lia.
    - apply IH. lia.
    - intros t Ht. apply (uniform_line_cell mask horizontal false); (done || lia). }
  by apply Hloop.
Qed.

(** X3: a grid of true cells with non-empty scan lines has exactly one span
    per scan line, from offset 0 to the length of the line, in the order of
    the lines. *)
Theorem identify_spans_full (mask : ndarray bool) (horizontal : bool) :
  well_formed mask → (∀ b, b ∈ cells mask → b = true) →
  0 < line_length mask horizontal →
  identify_spans mask horizontal
  = Ok ((λ line, (line, 0, line_length mask horizontal))
        <$> seq 0 (line_count mask horizontal)).
Proof.
  intros Hwf Hall Hlen. rewrite identify_spans_unfold.
  assert (∀ count first acc, first + count ≤ line_count mask horizontal →
            for_each (seq first count)
              (λ line, scan_line (S (line_length mask horizontal))
                         (line_cell mask horizontal line)
                         (line_length mask horizontal) line 0) acc
            = Ok (acc ++ ((λ line, (line, 0, line_length mask horizontal))
                          <$> seq first count))) as Hloop.
  { induction count as [|count IH]; intros first acc Hcount.
    { by rewrite app_nil_r. }
    cbn [seq]. rewrite for_each_cons, scan_line_all_true, bind_Ok_l; try lia.
    - rewrite IH by lia. by rewrite <- app_assoc.
    - intros t Ht. apply (uniform_line_cell mask horizontal true); (done || lia). }
  by rewrite Hloop.
Qed.

(* ================================================================= *)
(** ** [pixel_sort]: what the spans of the output hold *)

Lemma comprehension_Forall2 {A B} (f : A → result B) (xs : list A) (vs : list B) :
  comprehension f xs = Ok vs ↔ Forall2 (λ x v, f x = Ok v) xs vs.
Proof.
  revert vs. induction xs as [|x xs IH]; intros vs; cbn.
  - split; [intros [= <-]; constructor|by intros ->%Forall2_nil_inv_l].
  - split.
    + destruct (f x) as [v| |] eqn:Hv; cbn; [|done..].
      destruct (comprehension f xs) as [vs'| |] eqn:Hvs; cbn; [|done..].
      intros [= <-]. constructor; [done|]. by apply IH.
    + intros (v & vs' & Hv & Hvs & ->)%Forall2_cons_inv_l.
      apply IH in Hvs. by rewrite Hv, Hvs.
Qed.

Lemma comprehension_ext {A B} (f g : A → result B) (xs : list A) :
  (∀ x, x ∈ xs → f x = g x) → comprehension f xs = comprehension g xs.
Proof.
  induction xs as [|x xs IH]; intros Hfg; cbn; [done|].
  rewrite Hfg by left. rewrite IH; [done|]. intros x' Hx'. apply Hfg. by right.
Qed.

(** A loop whose turn [k] takes the state from [I k] to [I (S k)]. *)
Lemma for_each_counted {X St} (I : nat → St → Prop) (xs : list X)
    (body : X → St → result St) (s : St) :
  I 0 s →
  (∀ k x s, xs !! k = Some x → I k s → ∃ s', body x s = Ok s' ∧ I (S k) s') →
  ∃ s', for_each xs body s = Ok s' ∧ I (length xs) s'.
Proof.
  revert I s. induction xs as [|x xs IH]; intros I s Hs Hbody; cbn; [eauto|].
  destruct (Hbody 0 x s) as (s1 & -> & Hs1); [done..|]. rewrite bind_Ok_l.
  apply (IH (λ k, I (S k))); [done|].
  intros k x' s' Hx'. by apply (Hbody (S k)).
Qed.

Lemma lookup_enumerate_range_Some (start stop k : nat) (e : nat * nat) :
  enumerate (range start stop) !! k = Some e → e = (k, start + k) ∧ k < stop - start.
Proof.
  unfold enumerate, range. rewrite length_seq.
  intros (j & y & -> & Hj & Hy)%lookup_zip_with_Some.
  apply lookup_seq in Hj as [-> ?]. apply lookup_seq in Hy as [-> ?]. done.
Qed.

Lemma getitem_setitem {A} (a : ndarray A) (y x : nat) (v : A) :
  well_formed a → y < height a → x < width a →
  getitem (NdArray (height a) (width a) (<[y * width a + x := v]> (cells a))) y x = Ok v.
Proof.
  intros Hwf Hy Hx. apply getitem_Ok. cbn. split_and!; [done..|].
  apply list_lookup_insert_eq. rewrite Hwf. by apply flat_index_lt.
Qed.

Lemma read_span_frame {A} (a b : ndarray A) (horizontal : bool) (sp : span) :
  (∀ y x, covers horizontal sp y x → getitem a y x = getitem b y x) →
  read_span a horizontal sp = read_span b horizontal sp.
Proof.
  destruct sp as [[line start] stop]. intros Hsame. cbn.
  apply comprehension_ext. intros i Hi%elem_of_range.
  unfold line_cell, covers in *. destruct horizontal; apply Hsame; lia.
Qed.

Lemma length_enumerate {A} (xs : list A) : length (enumerate xs) = length xs.
Proof. unfold enumerate. apply length_zip_with_r_eq. by rewrite length_seq. Qed.

Lemma length_range (start stop : nat) : length (range start stop) = stop - start.
Proof. unfold range. apply length_seq. Qed.

Lemma lookup_range (start stop j : nat) :
  j < stop - start → range start stop !! j = Some (start + j).
Proof. intros Hj. unfold range. by apply lookup_seq_lt. Qed.

(** A list rewritten at the positions [ks] into a permutation of what it
    held there is a permutation of the list. *)
Lemma lookup_fmap_seq {A} (l : list A) :
  (λ i, l !! i) <$> seq 0 (length l) = Some <$> l.
Proof.
  apply list_eq. intros i. rewrite !list_lookup_fmap.
  destruct (decide (i < length l)) as [Hi|Hi].
  - rewrite lookup_seq_lt by done. cbn.
    by destruct (lookup_lt_is_Some_2 l i Hi) as [v ->].
  - by rewrite lookup_seq_ge, lookup_ge_None_2 by lia.
Qed.

Lemma omap_fmap_Some {A} (l : list A) : omap id (Some <$> l) = l.
Proof. induction l as [|x l IH]; [done|]. cbn. by rewrite IH. Qed.

Lemma Permutation_at {A} (l l' : list A) (ks : list nat) :
  length l' = length l → NoDup ks → (∀ i, i ∈ ks → i < length l) →
  (∀ i, i < length l → i ∉ ks → l' !! i = l !! i) →
  (λ i, l' !! i) <$> ks ≡ₚ (λ i, l !! i) <$> ks →
  l' ≡ₚ l.
Proof.
  intros Hlen Hdup Hin Hframe Hperm.
  set (rest := filter (λ i, i ∉ ks) (seq 0 (length l))).
  assert (seq 0 (length l) ≡ₚ ks ++ rest) as Hsplit.
  { apply NoDup_Permutation.
    - apply NoDup_seq.
    - apply NoDup_app. split_and!; [done| |by apply NoDup_filter, NoDup_seq].
      intros i Hi (Hni & _)%list_elem_of_filter. done.
    - intros i. unfold rest. rewrite elem_of_app, list_elem_of_filter, elem_of_seq.
      destruct (decide (i ∈ ks)) as [Hi|Hi]; [|tauto].
      specialize (Hin i Hi). split; [auto|lia]. }
  assert (Some <$> l' ≡ₚ Some <$> l) as Hsome.
  { rewrite <- !lookup_fmap_seq, Hlen, Hsplit, !fmap_app, Hperm.
    apply Permutation_app_head, reflexive_eq, list_fmap_ext.
    intros k i Hi. apply list_elem_of_lookup_2, list_elem_of_filter in Hi as [Hni Hi].
    apply elem_of_seq in Hi. apply Hframe; [lia|done]. }
  apply (omap_Permutation id) in Hsome. by rewrite !omap_fmap_Some in Hsome.
Qed.

Lemma read_span_lookup {A} (a : ndarray A) (horizontal : bool) (sp : span) (px : list A) :
  read_span a horizontal sp = Ok px →
  (λ k, cells a !! k) <$> span_cells (width a) horizontal sp = Some <$> px.
Proof.
  destruct sp as [[line start] stop]. unfold read_span, span_cells.
  rewrite comprehension_Forall2, <- list_fmap_compose.
  induction 1 as [|i v ks vs Hv _ IH]; [done|]. csimpl. rewrite IH. f_equal.
  unfold line_cell in Hv. destruct horizontal;
    by apply getitem_Ok in Hv as (_ & _ & Hv).
Qed.

(** A span rewritten into a permutation of its pixels: the array holds the
    pixels it held. *)
Lemma span_step_perm {A} (a b : ndarray A) (horizontal : bool) (sp : span)
    (px sorted_px : list A) :
  well_formed a → well_formed b → height b = height a → width b = width a →
  span_in_shape a horizontal sp →
  (∀ y x, ¬ covers horizontal sp y x → getitem b y x = getitem a y x) →
  read_span a horizontal sp = Ok px → read_span b horizontal sp = Ok sorted_px →
  sorted_px ≡ₚ px →
  cells b ≡ₚ cells a.
Proof.
  intros Hwfa Hwfb Hh Hw Hshape Hframe Hreada Hreadb Hperm.
  apply (Permutation_at _ _ (span_cells (width a) horizontal sp)).
  - unfold well_formed in *. congruence.
  - destruct sp as [[line start] stop]. unfold span_cells, span_in_shape in *.
    apply NoDup_fmap_2_strong; [|apply NoDup_seq].
    intros i j _ _. unfold line_count, line_length in Hshape.
    destruct horizontal; [lia|nia].
  - destruct sp as [[line start] stop]. unfold span_cells, span_in_shape in *.
    intros k (i & -> & Hi%elem_of_range)%list_elem_of_fmap. rewrite Hwfa.
    unfold line_count, line_length in Hshape.
    destruct horizontal; apply flat_index_lt; lia.
  - intros k Hk Hnk. rewrite Hwfa in Hk.
    assert (0 < width a) as Hpos by nia.
    pose proof (Nat.div_mod_eq k (width a)) as Hdm.
    pose proof (Nat.mod_upper_bound k (width a) ltac:(lia)) as Hx.
    assert (k `div` width a < height a) as Hy by (apply Nat.Div0.div_lt_upper_bound; lia).
    destruct (getitem_in_shape a (k `div` width a) (k `mod` width a)) as [v Hv]; [done..|].
    pose proof Hv as Hv'. rewrite <- Hframe in Hv'.
    + apply getitem_Ok in Hv as (_ & _ & Hv). apply getitem_Ok in Hv' as (_ & _ & Hv').
      rewrite Hw in Hv'.
      replace (k `div` width a * width a + k `mod` width a) with k in Hv, Hv' by lia.
      congruence.
    + intros Hcov. apply Hnk. destruct sp as [[line start] stop].
      unfold span_cells, covers in *. apply list_elem_of_fmap.
      destruct horizontal.
      * exists (k `mod` width a). split; [lia|]. apply elem_of_range. lia.
      * exists (k `div` width a). split; [lia|]. apply elem_of_range. lia.
  - rewrite <- Hw at 1. rewrite (read_span_lookup b _ _ _ Hreadb).
    rewrite (read_span_lookup a _ _ _ Hreada). by apply fmap_Permutation.
Qed.

Section SpanContent.
Context `{Externals} (hp : gmap loc image) (g : rng) (out : loc).
Context (metric : string) (reverse : bool).

(** After its turn of the loop, a horizontal span of [out] holds the sorted
    pixels. *)
Lemma sort_row_content (b : image) (sp : span) :
  well_formed b → span_in_shape b true sp →
  ∃ px sorted_span b',
    read_span b true sp = Ok px ∧
    sort_span px metric reverse = Ok sorted_span ∧
    sort_row out metric reverse sp (State (<[out := b]> hp) g)
    = Ok (State (<[out := b']> hp) g) ∧
    height b' = height b ∧ width b' = width b ∧ well_formed b' ∧
    (∀ y x, ¬ covers true sp y x → getitem b' y x = getitem b y x) ∧
    read_span b' true sp = Ok sorted_span.
Proof.
  destruct sp as [[y start] stop]. cbn. intros Hwf (Hy & Hlt & Hle).
  destruct (comprehension_total (λ x, getitem b y x) (range start stop))
    as (px & Hread & Hpx).
  { intros x Hx%elem_of_range. apply getitem_in_shape; (done || lia). }
  destruct (sort_span_total px metric reverse) as (sorted_span & Hsort & Hperm).
  assert (length sorted_span = stop - start) as Hlen.
  { by rewrite Hperm, Hpx, length_range. }
  exists px, sorted_span. eexists. split; [exact Hread|]. split; [done|]. split.
  { unfold sort_row. cbv beta iota zeta.
    rewrite deref_out, bind_Ok_l, Hread, bind_Ok_l, Hsort, bind_Ok_l.
    by rewrite bind_Ok_l, setslice_exact, bind_Ok_l, store_out. }
  cbn. split_and!; try done.
  - unfold well_formed. cbn. by rewrite length_inserts.
  - intros y' x' Hout. apply getitem_frame; [done..|]. cbn. intros Hy' Hx'.
    destruct (decide (y' = y)) as [->|Hne].
    + destruct (decide (x' < start)).
      * apply list_lookup_inserts_lt. lia.
      * apply list_lookup_inserts_ge. lia.
    + destruct (decide (y' < y)).
      * apply list_lookup_inserts_lt. nia.
      * apply list_lookup_inserts_ge. nia.
  - apply comprehension_Forall2, Forall2_same_length_lookup_2.
    { by rewrite length_range. }
    intros j x v Hx Hv.
    assert (j < stop - start) as Hj.
    { apply lookup_lt_Some in Hx. by rewrite length_range in Hx. }
    rewrite lookup_range in Hx by done. injection Hx as <-.
    unfold line_cell. apply getitem_Ok. cbn. split_and!; [done|lia|].
    rewrite list_lookup_inserts.
    + by replace (y * width b + (start + j) - (y * width b + start)) with j by lia.
    + lia.
    + rewrite Hwf. apply flat_index_lt; lia.
Qed.

(** After its turn of the loop, a vertical span of [out] holds the sorted
    pixels. *)
Lemma sort_column_content (b : image) (sp : span) :
  well_formed b → span_in_shape b false sp →
  ∃ px sorted_span b',
    read_span b false sp = Ok px ∧
    sort_span px metric reverse = Ok sorted_span ∧
    sort_column out metric reverse sp (State (<[out := b]> hp) g)
    = Ok (State (<[out := b']> hp) g) ∧
    height b' = height b ∧ width b' = width b ∧ well_formed b' ∧
    (∀ y x, ¬ covers false sp y x → getitem b' y x = getitem b y x) ∧
    read_span b' false sp = Ok sorted_span.
Proof.
  destruct sp as [[x start] stop]. cbn. intros Hwf (Hx & Hlt & Hle).
  destruct (comprehension_total (λ y, getitem b y x) (range start stop))
    as (px & Hread & Hpx).
  { intros y Hy%elem_of_range. apply getitem_in_shape; (done || lia). }
  destruct (sort_span_total px metric reverse) as (sorted_span & Hsort & Hperm).
  assert (length sorted_span = stop - start) as Hlen.
  { by rewrite Hperm, Hpx, length_range. }
  set (written := λ (k : nat) (σ : state), ∃ b',
         σ = State (<[out := b']> hp) g ∧
         height b' = height b ∧ width b' = width b ∧ well_formed b' ∧
         (∀ y' x', ¬ (x' = x ∧ start ≤ y' < start + k) →
                   getitem b' y' x' = getitem b y' x') ∧
         (∀ j v, j < k → sorted_span !! j = Some v →
                 getitem b' (start + j) x = Ok v)).
  destruct (for_each_counted written (enumerate (range start stop))
              (λ '(j, y) σ,
                 o ← deref σ out; v ← index sorted_span j;
                 o ← setitem o y x v; Ok (store σ out o))
              (State (<[out := b]> hp) g))
    as (σ' & Hrun & b' & -> & Hh & Hw & Hwf' & Hframe & Hcontent).
  - exists b. split_and!; try done. intros j v Hj. lia.
  - intros k e σ [-> Hk]%lookup_enumerate_range_Some
      (b1 & -> & Hh & Hw & Hwf1 & Hframe & Hcontent).
    destruct (index_lt sorted_span k) as (v & Hv & Hv'); [lia|].
    eexists. split.
    { rewrite deref_out, bind_Ok_l, Hv, bind_Ok_l.
      by rewrite setitem_in_shape, bind_Ok_l, store_out by lia. }
    eexists. split; [done|]. cbn. split_and!; try done.
    + unfold well_formed. cbn. by rewrite length_insert.
    + intros y' x' Hout. rewrite <- Hframe by lia.
      apply getitem_frame; [done..|]. cbn. intros Hy' Hx'.
      apply list_lookup_insert_ne. intros Heq.
      apply flat_index_inj in Heq as [? ?]; [|lia..]. lia.
    + intros j v' Hj Hv''. destruct (decide (j = k)) as [->|Hne].
      * assert (v' = v) as -> by congruence.
        apply getitem_setitem; [done|lia..].
      * rewrite <- (Hcontent j v') by (done || lia).
        apply getitem_frame; [done..|]. cbn. intros Hy' Hx'.
        apply list_lookup_insert_ne. intros Heq.
        apply flat_index_inj in Heq as [? ?]; [|lia..]. lia.
  - rewrite length_enumerate, length_range in Hframe, Hcontent.
    exists px, sorted_span, b'. split; [exact Hread|]. split; [done|]. split.
    { unfold sort_column. cbv beta iota zeta.
      by rewrite deref_out, bind_Ok_l, Hread, bind_Ok_l, Hsort, bind_Ok_l. }
    split_and!; try done.
    + intros y' x' Hout. apply Hframe. lia.
    + apply comprehension_Forall2, Forall2_same_length_lookup_2.
      { by rewrite length_range. }
      intros j y v Hy Hv.
      assert (j < stop - start) as Hj.
      { apply lookup_lt_Some in Hy. by rewrite length_range in Hy. }
      rewrite lookup_range in Hy by done. injection Hy as <-.
      unfold line_cell. by apply Hcontent.
Qed.

Lemma sort_span_content (horizontal : bool) (b : image) (sp : span) :
  well_formed b → span_in_shape b horizontal sp →
  ∃ px sorted_span b',
    read_span b horizontal sp = Ok px ∧
    sort_span px metric reverse = Ok sorted_span ∧
    (if horizontal then sort_row out metric reverse sp
     else sort_column out metric reverse sp) (State (<[out := b]> hp) g)
    = Ok (State (<[out := b']> hp) g) ∧
    height b' = height b ∧ width b' = width b ∧ well_formed b' ∧
    (∀ y x, ¬ covers horizontal sp y x → getitem b' y x = getitem b y x) ∧
    read_span b' horizontal sp = Ok sorted_span.
Proof.
  destruct horizontal; [apply sort_row_content|apply sort_column_content].
Qed.

(** The whole loop: the spans are sorted one by one, none disturbs
    another, and the rest of [out] stays as it is. *)
Lemma sort_spans_content (horizontal : bool) (spans : list span) (a : image) :
  well_formed a → Forall (span_in_shape a horizontal) spans →
  StronglySorted span_before spans →
  ∃ b, for_each spans (λ sp σ,
           if horizontal then sort_row out metric reverse sp σ
           else sort_column out metric reverse sp σ) (State (<[out := a]> hp) g)
       = Ok (State (<[out := b]> hp) g) ∧
       height b = height a ∧ width b = width a ∧ well_formed b ∧
       cells b ≡ₚ cells a ∧
       (∀ y x, (∀ sp, sp ∈ spans → ¬ covers horizontal sp y x) →
               getitem b y x = getitem a y x) ∧
       ∀ sp, sp ∈ spans →
         ∃ px sorted_span,
           read_span a horizontal sp = Ok px ∧
           sort_span px metric reverse = Ok sorted_span ∧
           read_span b horizontal sp = Ok sorted_span.
Proof.
  intros Hwf Hshape Hsorted. revert a Hwf Hshape.
  induction Hsorted as [|sp spans Hsorted IH Hbefore]; intros a Hwf Hshape.
  { exists a. split_and!; try done. intros sp Hsp. by apply elem_of_nil in Hsp. }
  apply Forall_cons in Hshape as [Hsp Hshape].
  destruct (sort_span_content horizontal a sp)
    as (px & sorted_span & a1 & Hread & Hsort & Hstep & Hh1 & Hw1 & Hwf1 & Hframe1 & Hread1);
    [done..|].
  destruct (IH a1) as (b & Hloop & Hh & Hw & Hwfb & Hpermb & Hframe & Hcontent); [done| |].
  { eapply Forall_impl; [exact Hshape|]. intros sp'. by apply span_in_shape_same. }
  rewrite Forall_forall in Hbefore.
  exists b. split_and!; try congruence.
  - rewrite for_each_cons. cbv beta.
    destruct horizontal; rewrite Hstep, bind_Ok_l; exact Hloop.
  - rewrite Hpermb.
    destruct (sort_span_total px metric reverse) as (sorted' & Hsort' & Hperm).
    rewrite Hsort in Hsort'. injection Hsort' as <-.
    by eapply (span_step_perm a a1 horizontal sp).
  - intros y x Hout. rewrite Hframe, Hframe1; [done| |].
    + apply Hout. left.
    + intros sp' Hsp'. apply Hout. by right.
  - intros sp' [->|Hsp']%elem_of_cons.
    + exists px, sorted_span. split_and!; try done.
      rewrite <- Hread1. apply read_span_frame. intros y x Hcov.
      apply Hframe. intros sp' Hsp' Hcov'.
      eapply span_before_disjoint; [by apply Hbefore| |]; done.
    + destruct (Hcontent sp' Hsp') as (px' & sorted' & Hr & Hs & Hr').
      exists px', sorted'. split_and!; try done.
      rewrite <- Hr. apply read_span_frame. intros y x Hcov. symmetry.
      apply Hframe1. intros Hcov'.
      eapply span_before_disjoint; [by apply Hbefore| |]; done.
Qed.

End SpanContent.

(* ================================================================= *)
(** ** Arrays, spans and masks: further facts *)

(** Two arrays of one shape with the same cell at every position are the
    same array. *)
Lemma ndarray_ext {A} (a b : ndarray A) :
  well_formed a → well_formed b →
  height a = height b → width a = width b →
  (∀ y x, y < height a → x < width a → getitem a y x = getitem b y x) →
  a = b.
Proof.
  destruct a as [h w ca], b as [h' w' cb]. unfold well_formed. cbn.
  intros Ha Hb <- <- Hsame. f_equal. apply list_eq. intros k.
  destruct (decide (k < h * w)) as [Hk|Hk].
  - assert (0 < w) as Hw by nia.
    pose proof (Nat.div_mod_eq k w) as Hdm.
    pose proof (Nat.mod_upper_bound k w ltac:(lia)) as Hx.
    assert (k `div` w < h) as Hy by (apply Nat.Div0.div_lt_upper_bound; lia).
    specialize (Hsame (k `div` w) (k `mod` w) Hy Hx).
    destruct (lookup_lt_is_Some_2 ca k) as [v Hv]; [lia|].
    assert (getitem (NdArray h w ca) (k `div` w) (k `mod` w) = Ok v) as Hget.
    { apply getitem_Ok. cbn. split_and!; [done..|].
      by replace (k `div` w * w + k `mod` w) with k by lia. }
    rewrite Hsame in Hget. apply getitem_Ok in Hget as (_ & _ & Hget). cbn in Hget.
    replace (k `div` w * w + k `mod` w) with k in Hget by lia. congruence.
  - by rewrite !lookup_ge_None_2 by lia.
Qed.

Lemma getitem_elem_of {A} (a : ndarray A) (y x : nat) (v : A) :
  getitem a y x = Ok v → v ∈ cells a.
Proof. intros (_ & _ & Hv)%getitem_Ok. by eapply list_elem_of_lookup_2. Qed.

Lemma read_span_getitem {A} (a : ndarray A) (horizontal : bool) (sp : span)
    (px : list A) (y x : nat) :
  read_span a horizontal sp = Ok px → covers horizontal sp y x →
  getitem a y x = index px (span_offset horizontal sp y x).
Proof.
  destruct sp as [[line start] stop]. unfold read_span, covers, span_offset. cbn.
  intros Hread%comprehension_Forall2 Hcov.
  set (i := if horizontal then x else y).
  assert (start ≤ i < stop ∧ getitem a y x = line_cell a horizontal line i) as [Hi ->].
  { unfold i, line_cell. destruct horizontal; destruct Hcov as [-> ?]; done. }
  destruct (Forall2_lookup_l _ _ _ (i - start) i Hread) as (v & Hv & Hcell).
  { rewrite lookup_range by lia. f_equal. lia. }
  rewrite Hcell. symmetry. by apply index_Ok.
Qed.

Lemma read_span_elem_of {A} (a : ndarray A) (horizontal : bool) (sp : span)
    (px : list A) (v : A) :
  read_span a horizontal sp = Ok px → v ∈ px →
  ∃ y x, covers horizontal sp y x ∧ getitem a y x = Ok v.
Proof.
  destruct sp as [[line start] stop]. unfold read_span, covers. cbn.
  intros Hread%comprehension_Forall2 [j Hj]%list_elem_of_lookup.
  destruct (Forall2_lookup_r _ _ _ j v Hread Hj) as (i & Hi & Hcell).
  apply lookup_seq in Hi as [-> Hlt]. unfold line_cell in Hcell.
  destruct horizontal.
  - exists line, (start + j). split; [lia|done].
  - exists (start + j), line. split; [lia|done].
Qed.

(** Without jitter the mask is the threshold rule at every pixel, and the
    generator is left alone. *)
Lemma create_mask_no_jitter `{Externals} (img : image) (low high : float)
    (channel : string) (invert : bool) (g : rng) :
  well_formed img → valid_channel channel = true →
  create_mask img low high channel invert 0 g
  = Ok (threshold_mask img low high channel invert, g).
Proof.
  intros Hwf Hch. rewrite create_mask_unfold.
  rewrite <- partial_mask_start with (low := low) (high := high) (channel := channel).
  pose proof (mask_rows_no_jitter img low high channel Hwf Hch g (height img) 0) as Hrows.
  cbn [Nat.mul Nat.add] in Hrows. rewrite Hrows by lia. clear Hrows.
  rewrite bind_Ok_l. cbn [fst snd]. rewrite partial_mask_end by done.
  unfold threshold_mask, selected, invert_mask. destruct invert; cbn; [|done].
  by rewrite <- list_fmap_compose.
Qed.

Lemma getitem_threshold_mask `{Externals} (img : image) (low high : float)
    (channel : string) (invert : bool) (y x : nat) (p : pixel) :
  getitem img y x = Ok p →
  getitem (threshold_mask img low high channel invert) y x
  = Ok (selected low high channel invert p).
Proof.
  intros (Hy & Hx & Hp)%getitem_Ok. apply getitem_Ok. cbn.
  by rewrite list_lookup_fmap, Hp.
Qed.

(* ================================================================= *)
(** ** [sort_span] on a sorted span *)

Lemma StronglySorted_weaken {A} (R1 R2 : relation A) (l : list A) :
  (∀ x y, R1 x y → R2 x y) → StronglySorted R1 l → StronglySorted R2 l.
Proof.
  intros HR. induction 1 as [|x l _ IH Hx]; constructor; [done|].
  eapply Forall_impl; [exact Hx|]. auto.
Qed.

(** A sorted list is a fixed point of the stable sort, in either order. *)
Lemma sort_decorated_fixed {A} (descending : bool) (l : list (float * A)) :
  Forall (λ d, is_nan d.1 = false) l →
  sort_decorated PrimFloat.ltb descending (sort_decorated PrimFloat.ltb descending l)
  = sort_decorated PrimFloat.ltb descending l.
Proof.
  intros Hnan.
  assert (∀ l : list (float * A), Forall (λ d, is_nan d.1 = false) l →
            stable_sort PrimFloat.ltb (stable_sort PrimFloat.ltb l)
            = stable_sort PrimFloat.ltb l) as Hfix.
  { intros l' Hl'. apply stable_sort_increasing.
    apply (StronglySorted_weaken (λ d1 d2 : float * A, float_le d1.1 d2.1)).
    - intros d1 d2 Hle.
      destruct (d2.1 <? d1.1)%float eqn:Hlt; [|done].
      apply float_lt_not_le in Hlt. unfold float_le in Hle. congruence.
    - apply (stable_sort_sorted PrimFloat.ltb (λ a, is_nan a = false) float_le); [| | |done].
      + intros a b _ _. apply float_lt_le.
      + intros a b Ha Hb. by apply float_not_lt_le.
      + apply float_le_trans. }
  unfold sort_decorated. destruct descending; [|by apply Hfix].
  rewrite reverse_involutive, Hfix; [done|]. by apply Forall_reverse.
Qed.

Lemma decorate_sorted `{Externals} (metric : string) (l : list (float * pixel)) :
  Forall (λ d, d.1 = metric_key metric d.2) l → decorate metric l.*2 = l.
Proof.
  unfold decorate. induction 1 as [|[k p] l Hk _ IH]; [done|].
  cbn in *. by rewrite IH, Hk.
Qed.

Lemma decorate_not_nan `{Externals} (metric : string) (px : list pixel) :
  Forall (λ p, is_nan (metric_key metric p) = false) px →
  Forall (λ d : float * pixel, is_nan d.1 = false) (decorate metric px).
Proof. unfold decorate. induction 1; cbn; constructor; done. Qed.

Lemma sort_span_fixed `{Externals} (px sorted_px : list pixel) (metric : string)
    (reverse : bool) :
  recognised metric = true →
  Forall (λ p, is_nan (metric_key metric p) = false) px →
  sort_span px metric reverse = Ok sorted_px →
  sort_span sorted_px metric reverse = Ok sorted_px.
Proof.
  intros Hm Hnan. rewrite !sort_span_recognised by done. intros [= <-].
  rewrite decorate_sorted.
  - by rewrite sort_decorated_fixed by by apply decorate_not_nan.
  - rewrite sort_decorated_perm. apply decorate_keys.
Qed.

(** X5: under a recognised metric and without NaN keys, sorting a span
    that [sort_span] has sorted (in the same order) returns it unchanged. *)
Theorem sort_span_idempotent `{Externals} (span_pixels : list pixel) (metric : string)
    (reverse : bool) :
  recognised metric = true →
  Forall (λ p, is_nan (metric_key metric p) = false) span_pixels →
  ∃ sorted_pixels,
    sort_span span_pixels metric reverse = Ok sorted_pixels ∧
    sort_span sorted_pixels metric reverse = Ok sorted_pixels.
Proof.
  intros Hm Hnan.
  destruct (sort_span_total span_pixels metric reverse) as (sorted_pixels & Hsort & _).
  exists sorted_pixels. split; [done|]. by eapply sort_span_fixed.
Qed.

(* ================================================================= *)
(** ** [pixel_sort]: the sort pass in full *)

(** Lines 113-128 on a well-formed image and a valid channel: the mask has
    the image's shape, its spans are maximal runs in scan order that cover
    its true cells, every span of [out] holds [sort_span] of the pixels the
    input has there, and the rest of [out] is the input. *)
Lemma sort_pass_content `{Externals} (σ : state) (img : loc) (a : image)
    (low high : float) (channel : string) (invert : bool) (random_offset : float)
    (horizontal : bool) (metric : string) (reverse : bool) :
  heap σ !! img = Some a → well_formed a → valid_channel channel = true →
  ∃ out mask g' spans b,
    (out ∉ dom (heap σ)) ∧
    create_mask a low high channel invert random_offset (generator σ) = Ok (mask, g') ∧
    identify_spans mask horizontal = Ok spans ∧
    Forall (maximal_run mask horizontal) spans ∧
    (∀ y x, getitem mask y x = Ok true → ∃ sp, sp ∈ spans ∧ covers horizontal sp y x) ∧
    sort_pass σ img low high channel invert random_offset horizontal metric reverse
    = Ok (out, State (<[out := b]> (heap σ)) g') ∧
    height b = height a ∧ width b = width a ∧ well_formed b ∧
    cells b ≡ₚ cells a ∧
    (∀ y x, (∀ sp, sp ∈ spans → ¬ covers horizontal sp y x) →
            getitem b y x = getitem a y x) ∧
    ∀ sp, sp ∈ spans →
      ∃ px sorted_span,
        read_span a horizontal sp = Ok px ∧
        sort_span px metric reverse = Ok sorted_span ∧
        read_span b horizontal sp = Ok sorted_span.
Proof.
  intros Himg Hwf Hch.
  set (out := (fresh (dom (heap σ)) : loc)).
  assert (out ∉ dom (heap σ)) as Hfresh by apply is_fresh.
  assert (out ≠ img) as Hne.
  { intros ->. apply Hfresh, elem_of_dom. by exists a. }
  destruct (create_mask_total a low high channel invert random_offset (generator σ))
    as (mask & g' & Hmask & Hh & Hw & Hmwf); [done..|].
  destruct (identify_spans_spec mask horizontal Hmwf)
    as (spans & Hspans & Hruns & Hsorted & Hcovers).
  destruct (sort_spans_content (heap σ) g' out metric reverse horizontal spans a)
    as (b & Hloop & Hbh & Hbw & Hbwf & Hbperm & Hframe & Hcontent); [done| |done|].
  { eapply Forall_impl; [exact Hruns|]. intros [[line start] stop] (Hline & Hrun).
    unfold line_run in Hrun. unfold span_in_shape, line_count, line_length in *.
    rewrite <- Hh, <- Hw. tauto. }
  exists out, mask, g', spans, b. split_and!; try done.
  unfold sort_pass. rewrite (deref_Some σ img a), bind_Ok_l by done.
  unfold alloc. fold out. cbv beta iota zeta.
  rewrite (deref_Some _ img a), bind_Ok_l
    by (cbn [heap]; by rewrite lookup_insert_ne).
  cbn [heap generator]. rewrite Hmask, bind_Ok_l. cbv beta iota zeta.
  rewrite Hspans, bind_Ok_l. by rewrite Hloop, bind_Ok_l.
Qed.

Section PipelineMore.
Context `{Externals} (σ : state) (img : loc) (a : image).
Context (low_thresh high_thresh : float) (channel : string) (invert : bool).
Context (random_offset : float) (horizontal : bool) (metric : string) (reverse : bool).
Hypothesis img_alive : heap σ !! img = Some a.
Hypothesis img_wf : well_formed a.
Hypothesis channel_ok : valid_channel channel = true.



End PipelineMore.

(** With [low > high] the mask is all zeros, or all ones under [invert],
    whatever the jitter. *)
Lemma create_mask_empty_range_mask `{Externals} (img : image) (low high : float)
    (channel : string) (invert : bool) (random_offset : float) (g : rng) :
  well_formed img → valid_channel channel = true → float_lt high low →
  ∃ g',
    create_mask img low high channel invert random_offset g
    = Ok (NdArray (height img) (width img)
            (replicate (height img * width img) invert), g').
Proof.
  intros Hwf Hch Hlt. rewrite create_mask_unfold.
  set (zeros := NdArray (height img) (width img)
                  (replicate (height img * width img) false)).
  destruct (for_each_invariant (λ st : ndarray bool * rng, st.1 = zeros)
              (seq 0 (height img))
              (λ y, for_each (seq 0 (width img))
                      (mask_cell img low high channel random_offset y))
              (zeros, g)) as ([mask g'] & -> & Hmask); [|done|].
  { intros y st Hy%elem_of_seq Hst.
    apply for_each_invariant; [|done].
    intros x [m g1] Hx%elem_of_seq Hm. cbn in Hm. subst m.
    destruct (mask_cell_empty_range img low high channel Hwf Hch random_offset y x zeros g1)
      as [g2 ->]; [done|lia..|]. by exists (zeros, g2). }
  cbn in Hmask. subst mask. rewrite bind_Ok_l. cbn [fst snd].
  exists g'. do 2 f_equal. unfold invert_mask, zeros.
  destruct invert; [|done]. cbn. by rewrite fmap_replicate.
Qed.

Section PipelineLaws.
Context `{Externals} (σ : state) (img : loc) (a : image).
Context (low_thresh high_thresh : float) (channel : string) (invert : bool).
Context (horizontal : bool) (metric : string) (reverse : bool).
Hypothesis img_alive : heap σ !! img = Some a.
Hypothesis img_wf : well_formed a.
Hypothesis channel_ok : valid_channel channel = true.


(** X14: without jitter and with [gamma == 1.0], under a recognised metric
    whose keys on the pixels of the image are not NaN, the pipeline is
    idempotent: run again on its own output, with the same parameters, it
    returns an array holding the same image. *)
Theorem pixel_sort_idempotent (gamma : float) :
  recognised metric = true →
  (∀ p, p ∈ cells a → is_nan (metric_key metric p) = false) →
  float_eq gamma 1 →
  ∃ out σ' b,
    pixel_sort σ img low_thresh high_thresh channel invert 0
      horizontal metric reverse gamma
    = Ok (out, σ') ∧
    heap σ' !! out = Some b ∧
    ∃ out2 σ'',
      pixel_sort σ' out low_thresh high_thresh channel invert 0
        horizontal metric reverse gamma
      = Ok (out2, σ'') ∧
      heap σ'' !! out2 = Some b.
Proof.
  intros Hm Hnan Hg.
  destruct (sort_pass_content σ img a low_thresh high_thresh channel invert 0
              horizontal metric reverse)
    as (out & mask & g' & spans & b & _ & Hmask & Hspans & Hruns & Hcovers & Hpass
        & Hh & Hw & Hwf & _ & Hframe & Hcontent); [done..|].
  rewrite create_mask_no_jitter in Hmask by done. injection Hmask as <- <-.
  rewrite Forall_forall in Hruns.
  set (σ1 := State (<[out := b]> (heap σ)) (generator σ)) in *.
  assert (heap σ1 !! out = Some b) as Hb by (cbn; by rewrite lookup_insert_eq).
  (* the pixels of a span of the input are selected, and so are those of
     the same span of the output *)
  assert (∀ sp px p, sp ∈ spans → read_span a horizontal sp = Ok px → p ∈ px →
            p ∈ cells a ∧ selected low_thresh high_thresh channel invert p = true)
    as Hselected.
  { intros sp px p Hsp Hread Hp.
    destruct (read_span_elem_of a horizontal sp px p Hread Hp) as (y & x & Hcov & Hget).
    split; [by eapply getitem_elem_of|].
    pose proof (maximal_run_covers _ _ _ _ _ (Hruns sp Hsp) Hcov) as Htrue.
    rewrite (getitem_threshold_mask a _ _ _ _ y x p Hget) in Htrue. congruence. }
  assert (∀ y x, getitem (threshold_mask a low_thresh high_thresh channel invert) y x
                 = Ok false →
                 ∀ sp, sp ∈ spans → ¬ covers horizontal sp y x) as Huncovered.
  { intros y x Hfalse sp Hsp Hcov.
    pose proof (maximal_run_covers _ _ _ _ _ (Hruns sp Hsp) Hcov) as Htrue. congruence. }
  (* the mask of the output is the mask of the input *)
  assert (threshold_mask b low_thresh high_thresh channel invert
          = threshold_mask a low_thresh high_thresh channel invert) as Hsame_mask.
  { apply ndarray_ext; unfold well_formed; cbn; rewrite ?length_fmap; try done.
    intros y x Hy Hx.
    destruct (getitem_in_shape a y x) as [pa Ha]; [done|lia..|].
    destruct (getitem_in_shape b y x) as [pb Hpb]; [done|lia..|].
    rewrite (getitem_threshold_mask a _ _ _ _ y x pa Ha).
    rewrite (getitem_threshold_mask b _ _ _ _ y x pb Hpb). f_equal.
    destruct (selected low_thresh high_thresh channel invert pa) eqn:Hsel.
    - destruct (Hcovers y x) as (sp & Hsp & Hcov).
      { by rewrite (getitem_threshold_mask a _ _ _ _ y x pa Ha), Hsel. }
      destruct (Hcontent sp Hsp) as (px & sorted_span & Hread & Hsort & Hread').
      destruct (sort_span_total px metric reverse) as (sorted' & Hsort' & Hperm).
      rewrite Hsort in Hsort'. injection Hsort' as <-.
      rewrite (read_span_getitem b horizontal sp sorted_span y x Hread' Hcov) in Hpb.
      apply index_Ok, list_elem_of_lookup_2 in Hpb. rewrite Hperm in Hpb.
      by apply (Hselected sp px pb).
    - rewrite Hframe in Hpb.
      + rewrite Ha in Hpb. injection Hpb as <-. done.
      + apply Huncovered. by rewrite (getitem_threshold_mask a _ _ _ _ y x pa Ha), Hsel. }
  (* the second run *)
  destruct (sort_pass_content σ1 out b low_thresh high_thresh channel invert 0
              horizontal metric reverse)
    as (out2 & mask2 & g2 & spans2 & c & _ & Hmask2 & Hspans2 & _ & _ & Hpass2
        & Hh2 & Hw2 & Hwf2 & _ & Hframe2 & Hcontent2); [done..|].
  rewrite create_mask_no_jitter in Hmask2 by done. injection Hmask2 as <- <-.
  rewrite Hsame_mask, Hspans in Hspans2. injection Hspans2 as <-.
  assert (c = b) as ->.
  { apply ndarray_ext; [done..|]. intros y x Hy Hx.
    destruct (getitem_in_shape a y x) as [pa Ha]; [done|lia..|].
    destruct (selected low_thresh high_thresh channel invert pa) eqn:Hsel.
    - destruct (Hcovers y x) as (sp & Hsp & Hcov).
      { by rewrite (getitem_threshold_mask a _ _ _ _ y x pa Ha), Hsel. }
      destruct (Hcontent sp Hsp) as (px & sorted_span & Hread & Hsort & Hread').
      destruct (Hcontent2 sp Hsp) as (px2 & sorted2 & Hread2 & Hsort2 & Hread2').
      rewrite Hread' in Hread2. injection Hread2 as <-.
      rewrite (sort_span_fixed px sorted_span metric reverse Hm) in Hsort2; [| |done].
      + injection Hsort2 as <-.
        rewrite (read_span_getitem c horizontal sp sorted_span y x Hread2' Hcov).
        by rewrite (read_span_getitem b horizontal sp sorted_span y x Hread' Hcov).
      + apply Forall_forall. intros p Hp. apply Hnan. by apply (Hselected sp px p).
    - apply Hframe2, Huncovered.
      by rewrite (getitem_threshold_mask a _ _ _ _ y x pa Ha), Hsel. }
  exists out, σ1, b. split_and!; [by apply pixel_sort_gamma_one|done|].
  exists out2, (State (<[out2 := b]> (heap σ1)) (generator σ1)). split.
  - by apply pixel_sort_gamma_one.
  - cbn. by rewrite lookup_insert_eq.
Qed.

End PipelineLaws.

(* ================================================================= *)
(** ** [create_mask]: the channel names and the jitter *)

Lemma for_each_ext {X St} (xs : list X) (body1 body2 : X → St → result St) (s : St) :
  (∀ x s, x ∈ xs → body1 x s = body2 x s) →
  for_each xs body1 s = for_each xs body2 s.
Proof.
  revert s. induction xs as [|x xs IH]; intros s Hbody; [done|].
  rewrite !for_each_cons, Hbody by left.
  destruct (body2 x s) as [s'| |]; cbn; [|done..].
  apply IH. intros x' s'' Hx'. apply Hbody. by right.
Qed.

Lemma for_each_skip {X St} (xs : list X) (body : X → St → result St) (s : St) :
  (∀ x s, x ∈ xs → body x s = Ok s) → for_each xs body s = Ok s.
Proof.
  induction xs as [|x xs IH]; intros Hbody; [done|].
  rewrite for_each_cons, Hbody, bind_Ok_l by left.
  apply IH. intros x' s' Hx'. apply Hbody. by right.
Qed.

Lemma mask_value_invalid `{Externals} (channel : string) (p : pixel) :
  valid_channel channel = false → mask_value channel p = Raise UnboundLocalError.
Proof.
  unfold valid_channel, is_hsl, mask_value.
  destruct (String.eqb channel "luminance"); [done|].
  destruct (rgb_to_hsl p) as [[h s] l]. cbn.
  destruct (String.eqb channel "hsl_h"); [done|].
  destruct (String.eqb channel "hsl_s"); [done|].
  by destruct (String.eqb channel "hsl_l").
Qed.

(** On an image with a pixel, a channel name outside the four makes the
    first turn of the loops raise. *)
Lemma create_mask_raises `{Externals} (img : image) (low high : float)
    (channel : string) (invert : bool) (random_offset : float) (g : rng) :
  well_formed img → valid_channel channel = false →
  0 < height img → 0 < width img →
  create_mask img low high channel invert random_offset g = Raise UnboundLocalError.
Proof.
  intros Hwf Hch Hh Hw. rewrite create_mask_unfold.
  destruct (height img) as [|h] eqn:Eh; [lia|].
  destruct (width img) as [|w] eqn:Ew; [lia|].
  cbn [seq]. rewrite for_each_cons. cbv beta. rewrite for_each_cons.
  assert (∀ st, mask_cell img low high channel random_offset 0 0 st
                = Raise UnboundLocalError) as ->; [|done].
  intros [mask g1]. unfold mask_cell.
  destruct (getitem_in_shape img 0 0) as [p ->]; [done|lia..|].
  rewrite bind_Ok_l. by rewrite mask_value_invalid.
Qed.

(** X9: [create_mask] checks the channel name only when it reads a pixel.
    With a name outside luminance, hsl_h, hsl_s, hsl_l it raises
    [UnboundLocalError] on an image that has a pixel, and returns the empty
    mask, with the generator untouched, on an image with no row or no
    column. *)
Theorem create_mask_invalid_channel `{Externals} (img : image) (low high : float)
    (channel : string) (invert : bool) (random_offset : float) (g : rng) :
  well_formed img → valid_channel channel = false →
  (0 < height img → 0 < width img →
   create_mask img low high channel invert random_offset g = Raise UnboundLocalError) ∧
  (height img = 0 ∨ width img = 0 →
   create_mask img low high channel invert random_offset g
   = Ok (NdArray (height img) (width img) [], g)).
Proof.
  intros Hwf Hch. split; [by apply create_mask_raises|].
  intros Hempty. rewrite create_mask_unfold.
  assert (height img * width img = 0) as -> by (destruct Hempty as [-> | ->]; lia).
  rewrite for_each_skip; [by destruct invert|].
  intros y st Hy%elem_of_seq. apply for_each_skip.
  intros x st' Hx%elem_of_seq. lia.
Qed.

(** X10: a jitter that is not positive (zero, negative or NaN) is no
    jitter: [create_mask] does what it does with [random_offset = 0.0]. *)
Theorem create_mask_jitter_off `{Externals} (img : image) (low high : float)
    (channel : string) (invert : bool) (random_offset : float) (g : rng) :
  (0 <? random_offset)%float = false →
  create_mask img low high channel invert random_offset g
  = create_mask img low high channel invert 0 g.
Proof.
  intros Hoff. rewrite !create_mask_unfold. f_equal.
  apply for_each_ext. intros y st _. apply for_each_ext. intros x [mask g1] _.
  unfold mask_cell. destruct (getitem img y x) as [p| |]; [|done..].
  rewrite !bind_Ok_l. destruct (mask_value channel p) as [val| |]; [|done..].
  rewrite !bind_Ok_l. by rewrite Hoff.
Qed.

Lemma draws_length `{Externals} (random_offset : float) (n : nat) (g : rng) :
  length (draws random_offset n g).1 = n.
Proof.
  revert g. induction n as [|n IH]; intros g; [done|]. cbn.
  destruct (uniform _ _ g) as [u g1]. specialize (IH g1).
  destruct (draws random_offset n g1) as [us g2]. cbn in *. by rewrite IH.
Qed.

(** One more draw comes after the others. *)
Lemma draws_S `{Externals} (random_offset : float) (n : nat) (g : rng) :
  draws random_offset (S n) g
  = let '(u, g') := uniform (- random_offset)%float random_offset
                      (draws random_offset n g).2 in
    ((draws random_offset n g).1 ++ [u], g').
Proof.
  revert g. induction n as [|n IH]; intros g.
  { cbn. by destruct (uniform _ _ g). }
  assert (∀ m g, draws random_offset (S m) g
                 = let '(u, g1) := uniform (- random_offset)%float random_offset g in
                   let '(us, g2) := draws random_offset m g1 in (u :: us, g2)) as Hstep
    by done.
  rewrite (Hstep (S n) g), (Hstep n g). destruct (uniform _ _ g) as [u g1]. rewrite IH.
  destruct (draws random_offset n g1) as [us g2]. cbn [fst snd].
  by destruct (uniform _ _ g2).
Qed.

Lemma draws_take `{Externals} (random_offset : float) (n k : nat) (g : rng) :
  k ≤ n → take k (draws random_offset n g).1 = (draws random_offset k g).1.
Proof.
  revert k g. induction n as [|n IH]; intros k g Hk.
  { replace k with 0 by lia. done. }
  destruct k as [|k]; [done|]. cbn.
  destruct (uniform _ _ g) as [u g1]. specialize (IH k g1).
  destruct (draws random_offset n g1) as [us g2], (draws random_offset k g1) as [us' g2'].
  cbn in *. rewrite IH by lia. done.
Qed.

Section JitterLoops.
Context `{Externals} (img : image) (low high : float) (channel : string).
Context (random_offset : float) (g : rng).
Hypothesis img_wf : well_formed img.
Hypothesis channel_ok : valid_channel channel = true.
Hypothesis jitter_on : float_lt 0 random_offset.



Lemma mask_cell_jitter (y x : nat) :
  y < height img → x < width img →
  mask_cell img low high channel random_offset y x (visited img low high channel random_offset g (y * width img + x))
  = Ok (visited img low high channel random_offset g (S (y * width img + x))).
Proof.
  intros Hy Hx. unfold mask_cell, visited.
  destruct (getitem_in_shape img y x) as [p Hp]; [done..|]. rewrite Hp, bind_Ok_l.
  rewrite mask_value_valid, bind_Ok_l by done.
  apply getitem_Ok in Hp as (_ & _ & Hp).
  set (k := y * width img + x) in *.
  assert (k < height img * width img) as Hk by by apply flat_index_lt.
  rewrite jitter_on, draws_S.
  pose proof (draws_length random_offset k g) as Hus.
  destruct (draws random_offset k g) as [us g1]. cbn [fst snd] in *.
  destruct (uniform _ _ g1) as [u g2]. cbn [fst snd].
  fold (in_thresholds low high (np_clip (channel_metric channel p + u) 0 1)).
  fold (jittered_rule low high channel p u).
  set (done_ := zip_with (jittered_rule low high channel) (take k (cells img)) us).
  assert (length done_ = k) as Hlen.
  { unfold done_. rewrite length_zip_with, length_take_le; [lia|]. rewrite img_wf. lia. }
  assert (jittered_partial_mask img low high channel (us ++ [u]) (S k)
          = NdArray (height img) (width img)
              (done_ ++ jittered_rule low high channel p u
                 :: replicate (height img * width img - S k) false)) as ->.
  { unfold jittered_partial_mask. f_equal. rewrite (take_S_r _ _ p) by done.
    rewrite zip_with_app by (rewrite length_take_le; [lia|rewrite img_wf; lia]).
    by rewrite <- app_assoc. }
  assert (jittered_partial_mask img low high channel us k
          = NdArray (height img) (width img)
              (done_ ++ false :: replicate (height img * width img - S k) false)) as Hk0.
  { unfold jittered_partial_mask. f_equal. f_equal.
    replace (height img * width img - k) with (S (height img * width img - S k)) by lia.
    done. }
  destruct (jittered_rule low high channel p u) eqn:Hrule; [|by rewrite Hk0].
  rewrite Hk0, setitem_in_shape by done. cbn. fold k.
  rewrite insert_app_r_alt by lia. by rewrite Hlen, Nat.sub_diag.
Qed.

Lemma mask_row_jitter (y n x : nat) :
  y < height img → x + n ≤ width img →
  for_each (seq x n) (mask_cell img low high channel random_offset y)
    (visited img low high channel random_offset g (y * width img + x))
  = Ok (visited img low high channel random_offset g (y * width img + x + n)).
Proof.
  intros Hy. revert x. induction n as [|n IH]; intros x Hx.
  { by rewrite Nat.add_0_r. }
  cbn [seq]. rewrite for_each_cons, mask_cell_jitter, bind_Ok_l by lia.
  replace (S (y * width img + x)) with (y * width img + S x) by lia.
  rewrite IH by lia. do 2 f_equal. lia.
Qed.

Lemma mask_rows_jitter (n y : nat) :
  y + n ≤ height img →
  for_each (seq y n) (λ y, for_each (seq 0 (width img))
                             (mask_cell img low high channel random_offset y))
    (visited img low high channel random_offset g (y * width img))
  = Ok (visited img low high channel random_offset g ((y + n) * width img)).
Proof.
  revert y. induction n as [|n IH]; intros y Hy.
  { by rewrite Nat.add_0_r. }
  cbn [seq]. rewrite for_each_cons. cbv beta.
  pose proof (mask_row_jitter y (width img) 0) as Hrow.
  rewrite !Nat.add_0_r in Hrow. rewrite Hrow, bind_Ok_l by lia.
  replace (y * width img + width img) with (S y * width img) by lia.
  rewrite IH by lia. do 2 f_equal. lia.
Qed.


End JitterLoops.

(* ================================================================= *)
(** ** [pixel_sort] and the channel name *)

(** X17: on an image that has a pixel, [pixel_sort] called with a channel
    name outside luminance, hsl_h, hsl_s, hsl_l raises [UnboundLocalError],
    from [create_mask], whatever the other parameters: no span is sorted and
    [gamma] is not looked at (so not even [gamma = 0] is reported). *)
Theorem pixel_sort_invalid_channel `{Externals} (σ : state) (img : loc) (a : image)
    (low_thresh high_thresh : float) (channel : string) (invert : bool)
    (random_offset : float) (horizontal : bool) (metric : string) (reverse : bool)
    (gamma : float) :
  heap σ !! img = Some a → well_formed a →
  0 < height a → 0 < width a →
  valid_channel channel = false →
  pixel_sort σ img low_thresh high_thresh channel invert random_offset
    horizontal metric reverse gamma
  = Raise UnboundLocalError.
Proof.
  intros Himg Hwf Hh Hw Hch.
  set (out := (fresh (dom (heap σ)) : loc)).
  assert (out ≠ img) as Hne.
  { intros Heq. apply (is_fresh (dom (heap σ))). fold out. rewrite Heq.
    apply elem_of_dom. by exists a. }
  unfold pixel_sort, sort_pass. rewrite (deref_Some σ img a), bind_Ok_l by done.
  unfold alloc. fold out. cbv beta iota zeta.
  rewrite (deref_Some _ img a), bind_Ok_l
    by (cbn [heap]; by rewrite lookup_insert_ne).
  cbn [heap generator]. by rewrite create_mask_raises.
Qed.

(* ================================================================= *)
(** ** [sort_span]: the two orders *)

Lemma SFleb_antisym (a b : spec_float) :
  SFleb a b = true → SFleb b a = true → SFeqb a b = true.
Proof. unfold SFleb, SFeqb. sf_cases. Qed.

Lemma float_le_antisym (a b : float) : float_le a b → float_le b a → float_eq a b.
Proof.
  unfold float_le, float_eq. rewrite !FloatAxioms.leb_spec, FloatAxioms.eqb_spec.
  apply SFleb_antisym.
Qed.

Lemma stable_sort_float_le {A} (l : list (float * A)) :
  Forall (λ d, is_nan d.1 = false) l →
  StronglySorted (λ d1 d2, float_le d1.1 d2.1) (stable_sort PrimFloat.ltb l).
Proof.
  intros Hl.
  apply (stable_sort_sorted PrimFloat.ltb (λ a, is_nan a = false) float_le); [| | |done].
  - intros a b _ _. apply float_lt_le.
  - intros a b Ha Hb. by apply float_not_lt_le.
  - apply float_le_trans.
Qed.

(** Without NaN keys the output of [sort_span] is in key order. *)
Lemma sort_span_ordered `{Externals} (px sorted_px : list pixel) (metric : string)
    (reverse : bool) :
  recognised metric = true →
  Forall (λ p, is_nan (metric_key metric p) = false) px →
  sort_span px metric reverse = Ok sorted_px →
  StronglySorted (key_order metric reverse) sorted_px.
Proof.
  intros Hm Hnan. rewrite sort_span_recognised by done. intros [= <-].
  set (D := decorate metric px).
  assert (Forall (λ d, d.1 = metric_key metric d.2)
            (sort_decorated PrimFloat.ltb reverse D)) as HS.
  { rewrite sort_decorated_perm. apply decorate_keys. }
  pose proof (decorate_not_nan metric px Hnan) as HD. fold D in HD.
  unfold sort_decorated, key_order in *. destruct reverse.
  - eapply (StronglySorted_fmap_on snd _ (flip (λ d1 d2, float_le d1.1 d2.1)));
      [|exact HS|].
    + intros [k1 p1] [k2 p2] Hk1 Hk2 Hle. unfold flip in Hle. cbn in *. by subst.
    + apply StronglySorted_flip_reverse, stable_sort_float_le. by apply Forall_reverse.
  - eapply (StronglySorted_fmap_on snd _ (λ d1 d2, float_le d1.1 d2.1));
      [|exact HS|by apply stable_sort_float_le].
    intros [k1 p1] [k2 p2] Hk1 Hk2 Hle. cbn in *. by subst.
Qed.

(** X6: under a recognised metric without NaN keys, when pixels that
    differ have keys that differ, the descending sort of a span is the
    ascending sort read backwards. (With ties it is not: a tie keeps its
    original order in both.) *)
Theorem sort_span_mirror `{Externals} (span_pixels : list pixel) (metric : string) :
  recognised metric = true →
  Forall (λ p, is_nan (metric_key metric p) = false) span_pixels →
  (∀ p q, p ∈ span_pixels → q ∈ span_pixels →
          float_eq (metric_key metric p) (metric_key metric q) → p = q) →
  ∃ ascending,
    sort_span span_pixels metric false = Ok ascending ∧
    sort_span span_pixels metric true = Ok (reverse ascending).
Proof.
  intros Hm Hnan Hdistinct. rewrite !sort_span_recognised by done.
  eexists. split; [done|]. f_equal. unfold sort_decorated.
  rewrite fmap_reverse. do 2 f_equal.
  set (D := decorate metric span_pixels).
  pose proof (decorate_not_nan metric span_pixels Hnan) as HD. fold D in HD.
  pose proof (decorate_keys metric span_pixels) as Hkeys. fold D in Hkeys.
  rewrite Forall_forall in Hkeys.
  assert (∀ d, d ∈ D → d.2 ∈ span_pixels) as Hin.
  { intros d Hd. rewrite <- (decorate_snd metric span_pixels). fold D.
    by apply list_elem_of_fmap_2. }
  apply (StronglySorted_unique_strong (λ d1 d2 : float * pixel, float_le d1.1 d2.1)).
  - intros [k1 p1] [k2 p2] H1 H2 H12 H21.
    rewrite stable_sort_perm, elem_of_reverse in H1. rewrite stable_sort_perm in H2.
    pose proof (Hkeys _ H1) as E1. pose proof (Hkeys _ H2) as E2.
    apply Hin in H1. apply Hin in H2. cbn in *. subst k1 k2.
    assert (p1 = p2) as ->; [|done].
    apply Hdistinct; [done..|]. by apply float_le_antisym.
  - apply stable_sort_float_le. by apply Forall_reverse.
  - by apply stable_sort_float_le.
  - by rewrite !stable_sort_perm, reverse_Permutation.
Qed.

(* ================================================================= *)
(** ** The keys of uint8 pixels *)

Lemma elem_of_uint8_values (v : Z) : uint8 v → v ∈ uint8_values.
Proof.
  intros Hv. unfold uint8 in Hv. apply list_elem_of_fmap. exists (Z.to_nat v).
  split; [lia|]. apply elem_of_seq. lia.
Qed.

Lemma forallb_elem_of {A} (f : A → bool) (l : list A) (x : A) :
  forallb f l = true → x ∈ l → f x = true.
Proof.
  intros Hall Hx. apply Is_true_true_2, forallb_True in Hall.
  rewrite Forall_forall in Hall. by apply Is_true_true_1, Hall.
Qed.

Lemma forallb3_elem_of {A} (f : A → A → A → bool) (l1 l2 l3 : list A) (x y z : A) :
  forallb3 f l1 l2 l3 = true → x ∈ l1 → y ∈ l2 → z ∈ l3 → f x y z = true.
Proof.
  unfold forallb3. intros Hall Hx Hy Hz.
  apply (forallb_elem_of _ _ x) in Hall; [|done].
  apply (forallb_elem_of _ _ y) in Hall; [|done].
  by apply (forallb_elem_of _ _ z) in Hall.
Qed.

(** Every uint8 pixel, by evaluation. *)
#[warnings="-inexact-float"]
Lemma luminance_table :
  forallb3 (λ r g b, in_unit_interval (r + g + b))
    (luminance_term 0.299 <$> uint8_values)
    (luminance_term 0.587 <$> uint8_values)
    (luminance_term 0.114 <$> uint8_values)
  = true.
Proof. vm_compute. reflexivity. Qed.

Lemma float_of_uint8_table :
  forallb (λ v, forallb (float_order_kept v) uint8_values) uint8_values = true.
Proof. vm_compute. reflexivity. Qed.

(** X8: the luminance of a pixel with channels in 0..255 is a number in
    the range 0 <= l < 1: never a NaN, and never 1.0 (white has luminance
    0.99999999999999989). *)
Theorem luminance_range (p : pixel) :
  valid_pixel p → float_le 0 (luminance p) ∧ float_lt (luminance p) 1.
Proof.
  destruct p as [[r g] b]. intros (Hr & Hg & Hb). cbn in Hr, Hg, Hb.
  apply elem_of_uint8_values in Hr, Hg, Hb.
  pose proof (forallb3_elem_of _ _ _ _ _ _ _ luminance_table
                (list_elem_of_fmap_2 _ _ _ Hr) (list_elem_of_fmap_2 _ _ _ Hg)
                (list_elem_of_fmap_2 _ _ _ Hb)) as Hin.
  by apply andb_true_iff in Hin.
Qed.

Lemma float_of_uint8_order (v w : Z) :
  uint8 v → uint8 w →
  is_nan (float_of_uint8 v) = false ∧
  (float_of_uint8 v <=? float_of_uint8 w)%float = (v <=? w)%Z.
Proof.
  intros Hv%elem_of_uint8_values Hw%elem_of_uint8_values.
  pose proof (forallb_elem_of _ _ _ (forallb_elem_of _ _ _ float_of_uint8_table Hv) Hw)
    as Hin.
  apply andb_true_iff in Hin as [Hnan Heq].
  split; [by apply negb_true_iff|by apply Bool.eqb_prop].
Qed.

Lemma metric_key_rgb `{Externals} (metric : string) (p : pixel) :
  is_rgb metric = true →
  recognised metric = true ∧
  metric_key metric p = float_of_uint8 (channel_value metric p).
Proof.
  unfold is_rgb, recognised, metric_key, channel_value. intros Hm.
  destruct (String.eqb_spec metric "r") as [->|_]; [done|].
  destruct (String.eqb_spec metric "g") as [->|_]; [done|].
  destruct (String.eqb_spec metric "b") as [->|_]; done.
Qed.

Lemma valid_pixel_channel (metric : string) (p : pixel) :
  valid_pixel p → uint8 (channel_value metric p).
Proof.
  intros (Hr & Hg & Hb). unfold channel_value.
  by repeat destruct (String.eqb _ _).
Qed.

(** X7: on pixels with channels in 0..255, [sort_span] under the metric
    r, g or b returns the pixels in the order of that channel's integer
    values, ascending, or descending if [reverse] is set: the conversion of
    the channel to a float keeps the order. *)
Theorem sort_span_by_channel `{Externals} (span_pixels : list pixel) (metric : string)
    (reverse : bool) :
  is_rgb metric = true → Forall valid_pixel span_pixels →
  ∃ sorted_pixels,
    sort_span span_pixels metric reverse = Ok sorted_pixels ∧
    sorted_pixels ≡ₚ span_pixels ∧
    StronglySorted (channel_order metric reverse) sorted_pixels.
Proof.
  intros Hm Hvalid.
  destruct (sort_span_total span_pixels metric reverse) as (sorted_pixels & Hsort & Hperm).
  exists sorted_pixels. split_and!; [done..|].
  assert (StronglySorted (key_order metric reverse) sorted_pixels) as Hordered.
  { eapply sort_span_ordered; [by apply (metric_key_rgb metric (0, 0, 0)%Z)| |done].
    eapply Forall_impl; [exact Hvalid|]. intros p Hp. cbn.
    destruct (metric_key_rgb metric p Hm) as [_ ->].
    eapply (float_of_uint8_order _ 0); [by apply valid_pixel_channel|done]. }
  rewrite <- (list_fmap_id sorted_pixels).
  eapply (StronglySorted_fmap_on id valid_pixel); [|by rewrite Hperm|exact Hordered].
  intros p q Hp Hq. unfold key_order, channel_order, float_le, id.
  destruct (metric_key_rgb metric p Hm) as [_ ->].
  destruct (metric_key_rgb metric q Hm) as [_ ->].
  pose proof (valid_pixel_channel metric p Hp) as Hcp.
  pose proof (valid_pixel_channel metric q Hq) as Hcq.
  destruct (float_of_uint8_order _ _ Hcp Hcq) as [_ Hpq].
  destruct (float_of_uint8_order _ _ Hcq Hcp) as [_ Hqp].
  destruct reverse; intros Hle; [rewrite Hqp in Hle|rewrite Hpq in Hle]; lia.
Qed.

(* ================================================================= *)
(** ** Rows and columns *)

Lemma transpose_well_formed {A} `{!Inhabited A} (a : ndarray A) :
  well_formed (transpose a).
Proof. unfold well_formed, transpose. cbn. by rewrite length_fmap, length_seq. Qed.

Lemma getitem_transpose {A} `{!Inhabited A} (a : ndarray A) (y x : nat) :
  well_formed a → getitem (transpose a) x y = getitem a y x.
Proof.
  intros Hwf. destruct (decide (y < height a ∧ x < width a)) as [[Hy Hx]|Hout].
  - destruct (getitem_in_shape a y x) as [v Hv]; [done..|]. rewrite Hv.
    apply getitem_Ok in Hv as (_ & _ & Hv). apply getitem_Ok. cbn.
    split_and!; [done..|].
    rewrite list_lookup_fmap, lookup_seq_lt by (apply flat_index_lt; lia). cbn. f_equal.
    replace ((x * height a + y) `mod` height a) with y
      by (rewrite Nat.add_comm, Nat.Div0.mod_add; by rewrite Nat.mod_small).
    replace ((x * height a + y) `div` height a) with x
      by (rewrite Nat.div_add_l by lia; rewrite Nat.div_small; lia).
    by apply list_lookup_total_correct.
  - unfold getitem, in_shape. cbn.
    destruct (bool_decide_reflect (x < width a)), (bool_decide_reflect (y < height a));
      cbn; try done; tauto.
Qed.

Lemma line_cell_transpose {A} `{!Inhabited A} (a : ndarray A) (horizontal : bool)
    (line i : nat) :
  well_formed a →
  line_cell (transpose a) (negb horizontal) line i = line_cell a horizontal line i.
Proof.
  intros Hwf. unfold line_cell. destruct horizontal; cbn.
  - by rewrite getitem_transpose.
  - by rewrite getitem_transpose.
Qed.

Lemma skip_run_ext (fuel : nat) (cell cell' : nat → result bool) (n i : nat) :
  (∀ i, cell i = cell' i) → skip_run fuel cell n i = skip_run fuel cell' n i.
Proof.
  intros Hcell. revert i. induction fuel as [|fuel IH]; intros i; [done|].
  cbn [skip_run]. rewrite Hcell. destruct (bool_decide _); [|done].
  destruct (cell' i) as [[]| |]; cbn; auto.
Qed.

Lemma scan_line_ext (fuel : nat) (cell cell' : nat → result bool) (n line i : nat)
    (acc : list span) :
  (∀ i, cell i = cell' i) →
  scan_line fuel cell n line i acc = scan_line fuel cell' n line i acc.
Proof.
  intros Hcell. revert i acc. induction fuel as [|fuel IH]; intros i acc; [done|].
  cbn [scan_line]. rewrite Hcell. destruct (bool_decide _); [|done].
  destruct (cell' i) as [[]| |]; cbn [mbind result_bind]; auto.
  rewrite (skip_run_ext _ cell cell') by done.
  destruct (skip_run _ cell' n i) as [j| |]; cbn; auto.
Qed.

Lemma identify_spans_swap (mask : ndarray bool) (horizontal : bool) :
  well_formed mask →
  identify_spans (transpose mask) (negb horizontal) = identify_spans mask horizontal.
Proof.
  intros Hwf. rewrite !identify_spans_unfold.
  assert (line_count (transpose mask) (negb horizontal) = line_count mask horizontal) as ->
    by by destruct horizontal.
  assert (line_length (transpose mask) (negb horizontal) = line_length mask horizontal) as ->
    by by destruct horizontal.
  apply for_each_ext. intros line acc _. apply scan_line_ext.
  intros i. by apply line_cell_transpose.
Qed.

(** X4: the two branches of [identify_spans] are one scan: on a
    well-formed grid, the vertical spans are the horizontal spans of the
    transposed grid, and the horizontal spans are the vertical spans of the
    transposed grid. *)
Theorem identify_spans_transpose (mask : ndarray bool) :
  well_formed mask →
  identify_spans mask false = identify_spans (transpose mask) true ∧
  identify_spans mask true = identify_spans (transpose mask) false.
Proof.
  intros Hwf. split; symmetry.
  - by apply (identify_spans_swap mask false).
  - by apply (identify_spans_swap mask true).
Qed.

Lemma threshold_mask_transpose `{Externals} (a : image) (low high : float)
    (channel : string) (invert : bool) :
  well_formed a →
  threshold_mask (transpose a) low high channel invert
  = transpose (threshold_mask a low high channel invert).
Proof.
  intros Hwf.
  assert (well_formed (threshold_mask a low high channel invert)) as Hwfm.
  { unfold well_formed, threshold_mask. cbn. by rewrite length_fmap. }
  apply ndarray_ext; [|apply transpose_well_formed|done..|].
  { unfold well_formed, threshold_mask. cbn. by rewrite !length_fmap, length_seq. }
  intros y x Hy Hx. rewrite getitem_transpose by done.
  destruct (getitem_in_shape a x y) as [p Hp]; [done..|].
  rewrite (getitem_threshold_mask a _ _ _ _ x y p Hp).
  apply getitem_threshold_mask. by rewrite getitem_transpose.
Qed.

Lemma read_span_transpose {A} `{!Inhabited A} (a : ndarray A) (horizontal : bool)
    (sp : span) :
  well_formed a →
  read_span (transpose a) (negb horizontal) sp = read_span a horizontal sp.
Proof.
  intros Hwf. destruct sp as [[line start] stop]. unfold read_span.
  apply comprehension_ext. intros i _. by apply line_cell_transpose.
Qed.

Lemma covers_swap (horizontal : bool) (sp : span) (y x : nat) :
  covers (negb horizontal) sp x y ↔ covers horizontal sp y x.
Proof. destruct sp as [[line start] stop]. by destruct horizontal. Qed.

(** X18: the row branch and the column branch of the loop of [pixel_sort]
    do the same to the image. Without jitter and with [gamma == 1.0], a run
    on the transposed image in the other orientation returns the transpose
    of what the run on the image returns. *)
Theorem pixel_sort_transpose `{Externals} (σ σt : state) (img imgt : loc) (a : image)
    (low_thresh high_thresh : float) (channel : string) (invert : bool)
    (horizontal : bool) (metric : string) (reverse : bool) (gamma : float) :
  heap σ !! img = Some a → heap σt !! imgt = Some (transpose a) →
  well_formed a → valid_channel channel = true → float_eq gamma 1 →
  ∃ out σ' b outt σt',
    pixel_sort σ img low_thresh high_thresh channel invert 0
      horizontal metric reverse gamma
    = Ok (out, σ') ∧
    heap σ' !! out = Some b ∧
    pixel_sort σt imgt low_thresh high_thresh channel invert 0
      (negb horizontal) metric reverse gamma
    = Ok (outt, σt') ∧
    heap σt' !! outt = Some (transpose b).
Proof.
  intros Himg Himgt Hwf Hch Hg.
  destruct (sort_pass_content σ img a low_thresh high_thresh channel invert 0
              horizontal metric reverse)
    as (out & mask & g' & spans & b & _ & Hmask & Hspans & Hruns & Hcovers & Hpass
        & Hh & Hw & Hwfb & _ & Hframe & Hcontent); [done..|].
  rewrite create_mask_no_jitter in Hmask by done. injection Hmask as <- <-.
  rewrite Forall_forall in Hruns.
  destruct (sort_pass_content σt imgt (transpose a) low_thresh high_thresh channel invert 0
              (negb horizontal) metric reverse)
    as (outt & maskt & gt' & spanst & bt & _ & Hmaskt & Hspanst & _ & _ & Hpasst
        & Hht & Hwt & Hwfbt & _ & Hframet & Hcontentt);
    [done|apply transpose_well_formed|done|].
  rewrite create_mask_no_jitter in Hmaskt by (done || apply transpose_well_formed).
  injection Hmaskt as <- <-.
  rewrite threshold_mask_transpose, identify_spans_swap, Hspans in Hspanst;
    [|unfold well_formed, threshold_mask; cbn; by rewrite length_fmap|done].
  injection Hspanst as <-.
  assert (bt = transpose b) as ->.
  { apply ndarray_ext; [done|apply transpose_well_formed|cbn in *; congruence..|].
    intros y x Hy Hx. rewrite Hht in Hy. rewrite Hwt in Hx. cbn in Hy, Hx.
    rewrite getitem_transpose by done.
    destruct (getitem_in_shape a x y) as [p Hp]; [done..|].
    destruct (selected low_thresh high_thresh channel invert p) eqn:Hsel.
    - destruct (Hcovers x y) as (sp & Hsp & Hcov).
      { by rewrite (getitem_threshold_mask a _ _ _ _ x y p Hp), Hsel. }
      destruct (Hcontent sp Hsp) as (px & sorted_span & Hread & Hsort & Hread').
      destruct (Hcontentt sp Hsp) as (pxt & sortedt & Hreadt & Hsortt & Hreadt').
      rewrite read_span_transpose, Hread in Hreadt by done. injection Hreadt as <-.
      rewrite Hsort in Hsortt. injection Hsortt as <-.
      rewrite (read_span_getitem b horizontal sp sorted_span x y Hread' Hcov).
      rewrite (read_span_getitem bt (negb horizontal) sp sorted_span y x Hreadt');
        [|by apply covers_swap].
      f_equal. unfold span_offset. by destruct horizontal.
    - assert (∀ sp, sp ∈ spans → ¬ covers horizontal sp x y) as Hout.
      { intros sp Hsp Hcov.
        pose proof (maximal_run_covers _ _ _ _ _ (Hruns sp Hsp) Hcov) as Htrue.
        rewrite (getitem_threshold_mask a _ _ _ _ x y p Hp) in Htrue. congruence. }
      rewrite Hframe by done. rewrite Hframet.
      + by rewrite getitem_transpose.
      + intros sp Hsp Hcov. apply (Hout sp Hsp). by apply covers_swap. }
  exists out, (State (<[out := b]> (heap σ)) (generator σ)), b,
         outt, (State (<[outt := transpose b]> (heap σt)) (generator σt)).
  split_and!.
  - by apply pixel_sort_gamma_one.
  - cbn. by rewrite lookup_insert_eq.
  - by apply pixel_sort_gamma_one.
  - cbn. by rewrite lookup_insert_eq.
Qed.

(* ================================================================= *)
(** ** [pixel_sort]: the fallback metric *)

(** Under a metric outside the recognised set, ascending, a span is
    returned as it is. *)
Lemma sort_span_fallback_identity `{Externals} (px : list pixel) (metric : string) :
  recognised metric = false → sort_span px metric false = Ok px.
Proof.
  intros Hm. rewrite sort_span_unrecognised by done.
  set (D := zip (Z.of_nat <$> range 0 (length px)) px).
  assert (D.*2 = px) as HD.
  { apply snd_zip. unfold range. rewrite length_fmap, length_seq. lia. }
  pose proof (enumerated_increasing px 0 (length px - 0)) as Hinc. fold (range 0 (length px)) in Hinc.
  fold D in Hinc. unfold sort_decorated. f_equal.
  rewrite stable_sort_increasing; [done|].
  eapply StronglySorted_weaken; [|exact Hinc].
  intros d1 d2 Hlt. cbn in *. lia.
Qed.

Lemma covers_dec (horizontal : bool) (sp : span) (y x : nat) :
  Decision (covers horizontal sp y x).
Proof. destruct sp as [[line start] stop], horizontal; cbn; apply _. Qed.

Section PipelineEdges.
Context `{Externals} (σ : state) (img : loc) (a : image).
Context (low_thresh high_thresh : float) (channel : string) (invert : bool).
Context (random_offset : float) (horizontal : bool) (metric : string) (reverse : bool).
Hypothesis img_alive : heap σ !! img = Some a.
Hypothesis img_wf : well_formed a.
Hypothesis channel_ok : valid_channel channel = true.


End PipelineEdges.

(* ================================================================= *)
(** ** The further properties on examples *)

Lemma identify_spans_partition_example :
  well_formed example_mask ∧
  ∃ spans,
    identify_spans example_mask false = Ok spans ∧
    (∀ y x, getitem example_mask y x = Ok true ↔
            ∃ sp, sp ∈ spans ∧ covers false sp y x) ∧
    (∀ y x sp1 sp2, sp1 ∈ spans → sp2 ∈ spans →
       covers false sp1 y x → covers false sp2 y x → sp1 = sp2).
Proof. split; [reflexivity|]. apply identify_spans_partition. reflexivity. Defined.

Lemma identify_spans_none_example :
  well_formed blank_mask ∧ (∀ b, b ∈ cells blank_mask → b = false) ∧
  identify_spans blank_mask true = Ok [].
Proof.
  split; [reflexivity|].
  assert (∀ b, b ∈ cells blank_mask → b = false) as Hblank
    by (by intros b [-> _]%elem_of_replicate).
  split; [exact Hblank|]. apply identify_spans_none; [reflexivity|exact Hblank].
Defined.

Lemma identify_spans_full_example :
  well_formed solid_mask ∧ (∀ b, b ∈ cells solid_mask → b = true) ∧
  0 < line_length solid_mask false ∧
  identify_spans solid_mask false
  = Ok ((λ line, (line, 0, line_length solid_mask false))
        <$> seq 0 (line_count solid_mask false)).
Proof.
  split; [reflexivity|].
  assert (∀ b, b ∈ cells solid_mask → b = true) as Hsolid
    by (by intros b [-> _]%elem_of_replicate).
  split; [exact Hsolid|]. split; [cbn; lia|].
  apply identify_spans_full; [reflexivity|exact Hsolid|cbn; lia].
Defined.


Lemma pixel_sort_idempotent_example :
  heap (example_state example_grid) !! 0 = Some example_grid ∧
  well_formed example_grid ∧ valid_channel "luminance" = true ∧
  recognised "luminance" = true ∧
  (∀ p, p ∈ cells example_grid →
        is_nan (@metric_key example_externals "luminance" p) = false) ∧
  float_eq 1 1 ∧
  ∃ out σ' b,
    @pixel_sort example_externals (example_state example_grid) 0
      0.0625 0.5 "luminance" false 0 false "luminance" false 1
    = Ok (out, σ') ∧
    heap σ' !! out = Some b ∧
    ∃ out2 σ'',
      @pixel_sort example_externals σ' out
        0.0625 0.5 "luminance" false 0 false "luminance" false 1
      = Ok (out2, σ'') ∧
      heap σ'' !! out2 = Some b.
Proof.
  do 4 (split; [reflexivity|]).
  assert (∀ p, p ∈ cells example_grid →
               is_nan (@metric_key example_externals "luminance" p) = false) as Hnan.
  { apply Forall_forall. repeat constructor. }
  split; [exact Hnan|]. split; [reflexivity|].
  apply (@pixel_sort_idempotent example_externals _ _ example_grid);
    (reflexivity || exact Hnan).
Defined.

Lemma sort_span_idempotent_example :
  recognised "b" = true ∧
  Forall (λ p, is_nan (@metric_key example_externals "b" p) = false) example_span ∧
  ∃ sorted_pixels,
    @sort_span example_externals example_span "b" true = Ok sorted_pixels ∧
    @sort_span example_externals sorted_pixels "b" true = Ok sorted_pixels.
Proof.
  split; [reflexivity|].
  assert (Forall (λ p, is_nan (@metric_key example_externals "b" p) = false)
            example_span) as Hnan by repeat constructor.
  split; [exact Hnan|].
  apply (@sort_span_idempotent example_externals); [reflexivity|exact Hnan].
Defined.


Lemma create_mask_invalid_channel_example :
  well_formed example_row ∧ valid_channel "hue" = false ∧
  ((0 < height example_row → 0 < width example_row →
    @create_mask example_externals example_row 0.25 0.75 "hue" false 0 0
    = Raise UnboundLocalError) ∧
   (height example_row = 0 ∨ width example_row = 0 →
    @create_mask example_externals example_row 0.25 0.75 "hue" false 0 0
    = Ok (NdArray (height example_row) (width example_row) [], 0))).
Proof.
  do 2 (split; [reflexivity|]).
  apply (@create_mask_invalid_channel example_externals); reflexivity.
Defined.

Lemma pixel_sort_invalid_channel_example :
  heap (example_state example_row) !! 0 = Some example_row ∧
  well_formed example_row ∧
  0 < height example_row ∧ 0 < width example_row ∧
  valid_channel "red" = false ∧
  @pixel_sort example_externals (example_state example_row) 0
    0.25 0.75 "red" false 0 true "luminance" false 0
  = Raise UnboundLocalError.
Proof.
  do 2 (split; [reflexivity|]). do 2 (split; [cbn; lia|]). split; [reflexivity|].
  apply (@pixel_sort_invalid_channel example_externals _ _ example_row);
    (reflexivity || (cbn; lia)).
Defined.

Lemma create_mask_jitter_off_example :
  (0 <? -0.5)%float = false ∧
  @create_mask example_externals example_row 0.25 1 "luminance" false (-0.5) 0
  = @create_mask example_externals example_row 0.25 1 "luminance" false 0 0.
Proof.
  split; [reflexivity|].
  apply (@create_mask_jitter_off example_externals). reflexivity.
Defined.


Lemma sort_span_mirror_example :
  recognised "b" = true ∧
  Forall (λ p, is_nan (@metric_key example_externals "b" p) = false) example_span ∧
  (∀ p q, p ∈ example_span → q ∈ example_span →
          float_eq (@metric_key example_externals "b" p)
                   (@metric_key example_externals "b" q) → p = q) ∧
  ∃ ascending,
    @sort_span example_externals example_span "b" false = Ok ascending ∧
    @sort_span example_externals example_span "b" true = Ok (reverse ascending).
Proof.
  split; [reflexivity|].
  assert (Forall (λ p, is_nan (@metric_key example_externals "b" p) = false)
            example_span) as Hnan by repeat constructor.
  assert (∀ p q, p ∈ example_span → q ∈ example_span →
            float_eq (@metric_key example_externals "b" p)
                     (@metric_key example_externals "b" q) → p = q) as Hdistinct.
  { unfold example_span. intros p q Hp Hq Heq.
    rewrite !elem_of_cons, elem_of_nil in Hp, Hq.
    destruct Hp as [->|[->|[->|[]]]], Hq as [->|[->|[->|[]]]];
      try reflexivity; vm_compute in Heq; discriminate. }
  split; [exact Hnan|]. split; [exact Hdistinct|].
  apply (@sort_span_mirror example_externals); [reflexivity|exact Hnan|exact Hdistinct].
Defined.


Lemma identify_spans_transpose_example :
  well_formed example_mask ∧
  identify_spans example_mask false = identify_spans (transpose example_mask) true ∧
  identify_spans example_mask true = identify_spans (transpose example_mask) false.
Proof. split; [reflexivity|]. apply identify_spans_transpose. reflexivity. Defined.

Lemma pixel_sort_transpose_example :
  heap (example_state example_grid) !! 0 = Some example_grid ∧
  heap (example_state (transpose example_grid)) !! 0 = Some (transpose example_grid) ∧
  well_formed example_grid ∧ valid_channel "luminance" = true ∧ float_eq 1 1 ∧
  ∃ out σ' b outt σt',
    @pixel_sort example_externals (example_state example_grid) 0
      0.0625 0.5 "luminance" false 0 false "luminance" false 1
    = Ok (out, σ') ∧
    heap σ' !! out = Some b ∧
    @pixel_sort example_externals (example_state (transpose example_grid)) 0
      0.0625 0.5 "luminance" false 0 (negb false) "luminance" false 1
    = Ok (outt, σt') ∧
    heap σt' !! outt = Some (transpose b).
Proof.
  do 5 (split; [reflexivity|]).
  apply (@pixel_sort_transpose example_externals _ _ _ _ example_grid); reflexivity.
Defined.

Lemma luminance_range_example :
  valid_pixel (grey 255) ∧
  float_le 0 (luminance (grey 255)) ∧ float_lt (luminance (grey 255)) 1.
Proof.
  assert (valid_pixel (grey 255)) as Hwhite by (unfold valid_pixel, uint8; cbn; lia).
  split; [exact Hwhite|]. apply luminance_range. exact Hwhite.
Defined.

Lemma sort_span_by_channel_example :
  is_rgb "b" = true ∧ Forall valid_pixel example_span ∧
  ∃ sorted_pixels,
    @sort_span example_externals example_span "b" true = Ok sorted_pixels ∧
    sorted_pixels ≡ₚ example_span ∧
    StronglySorted (channel_order "b" true) sorted_pixels.
Proof.
  split; [reflexivity|].
  assert (Forall valid_pixel example_span) as Hvalid
    by (repeat constructor; unfold uint8; cbn; lia).
  split; [exact Hvalid|].
  apply (@sort_span_by_channel example_externals); [reflexivity|exact Hvalid].
Defined.

